(** * A shallow embedding of @memoized (src/CHANGELOG.md, the library source)

    - [deepEqual] (lines 49-149) over a tree model of JavaScript values;
    - [createMemoizedMethod] (lines 159-200): the per-method cache cell
      with its [memoizedFn] and [clearMemo];
    - [clearAllMemoized] and the two decorator forms of [memoized]
      (lines 207-332) over a small world of instances;
    - the time-bounded cell of [memoizedTTL], whose code is not in the
      source tree, modelled from the spec. *)

From Stdlib Require Import ZArith Bool List String Lia Permutation.
From stdpp Require Import base gmap strings.
Import ListNotations.
Open Scope Z_scope.
Set Warnings "-register-all".

(** ** JavaScript values *)

(** A JS number.  Only [===] is ever applied to numbers, so a finite
    number is represented by its value; [NaN] is kept apart because
    [NaN === NaN] is false. *)
Inductive Num := NFin (z : Z) | NNaN.

(** A value seen by [deepEqual].  Every object carries its reference
    [r]: [===] on objects compares references only.  Property lists are
    the own enumerable properties in key order.  Arrays are dense (an array
    with holes is not represented), and arrays, Maps, Sets, Dates, RegExps
    and functions carry no further own properties. *)
Inductive Value :=
| VUndef
| VNull
| VBool (b : bool)
| VNum (n : Num)
| VStr (s : string)
| VSym (id : nat)
| VArray (r : nat) (xs : list Value)
| VDate (r : nat) (time : Num)
| VRegExp (r : nat) (src : string)          (* [toString()] of the regexp *)
| VMap (r : nat) (entries : list (Value * Value))
| VSet (r : nat) (xs : list Value)
| VPlain (r : nat) (fields : list (string * Value))   (* prototype Object.prototype *)
| VInst (r : nat) (cls : nat) (fields : list (string * Value)) (protoEquals : option nat)
        (* an instance of a user class; [protoEquals] its inherited
           [equals] method, if any *)
| VFunc (r : nat) (fid : nat).

(** The result of running JS code: a value, or a thrown exception. *)
Inductive Outcome := Ret (v : Value) | Throw (e : Value).

Definition num_strict_eq (x y : Num) : bool :=
  match x, y with
  | NFin a, NFin b => Z.eqb a b
  | _, _ => false
  end.

(** SameValueZero, used by [Map.prototype.has]/[get]. *)
Definition num_svz (x y : Num) : bool :=
  match x, y with
  | NFin a, NFin b => Z.eqb a b
  | NNaN, NNaN => true
  | _, _ => false
  end.

Definition obj_ref (v : Value) : option nat :=
  match v with
  | VArray r _ | VDate r _ | VRegExp r _ | VMap r _ | VSet r _
  | VPlain r _ | VInst r _ _ _ | VFunc r _ => Some r
  | _ => None
  end.

Definition ref_eq (a b : Value) : bool :=
  match obj_ref a, obj_ref b with
  | Some x, Some y => Nat.eqb x y
  | _, _ => false
  end.

(** [a === b] *)
Definition strict_eq (a b : Value) : bool :=
  match a, b with
  | VUndef, VUndef | VNull, VNull => true
  | VBool x, VBool y => Bool.eqb x y
  | VNum x, VNum y => num_strict_eq x y
  | VStr x, VStr y => String.eqb x y
  | VSym x, VSym y => Nat.eqb x y
  | _, _ => ref_eq a b
  end.

Definition same_value_zero (a b : Value) : bool :=
  match a, b with
  | VNum x, VNum y => num_svz x y
  | _, _ => strict_eq a b
  end.

(** [v == null] *)
Definition is_nullish (v : Value) : bool :=
  match v with VUndef | VNull => true | _ => false end.

Definition typeof (v : Value) : string :=
  match v with
  | VUndef => "undefined"
  | VBool _ => "boolean"
  | VNum _ => "number"
  | VStr _ => "string"
  | VSym _ => "symbol"
  | VFunc _ _ => "function"
  | _ => "object"
  end.

(** ToBoolean, applied by [every], [some] and [!]. *)
Definition truthy (v : Value) : bool :=
  match v with
  | VUndef | VNull => false
  | VBool b => b
  | VNum (NFin z) => negb (Z.eqb z 0)
  | VNum NNaN => false
  | VStr s => negb (String.eqb s "")
  | _ => true
  end.

(** [obj[key]] on an own property list; an absent key reads [undefined]. *)
Fixpoint get_field (fs : list (string * Value)) (k : string) : Value :=
  match fs with
  | [] => VUndef
  | (k', v) :: fs' => if String.eqb k k' then v else get_field fs' k
  end.

(** The own property [key] of a property list, if there is one. *)
Fixpoint find_field (fs : list (string * Value)) (k : string) : option Value :=
  match fs with
  | [] => None
  | (k', v) :: fs' => if String.eqb k k' then Some v else find_field fs' k
  end.

(** References reserved for the built-in objects of the realm. *)
Definition object_prototype_ref : nat := 1000.

(** The properties of [Object.prototype] (none of them enumerable): its
    methods, functions of their own, and the [__proto__] accessor, which
    on a plain object answers [Object.prototype] itself (an object whose
    prototype is [null], so not a plain object). *)
Definition object_prototype : list (string * Value) :=
  [("constructor", VFunc (object_prototype_ref + 1) 1);
   ("__defineGetter__", VFunc (object_prototype_ref + 2) 2);
   ("__defineSetter__", VFunc (object_prototype_ref + 3) 3);
   ("hasOwnProperty", VFunc (object_prototype_ref + 4) 4);
   ("__lookupGetter__", VFunc (object_prototype_ref + 5) 5);
   ("__lookupSetter__", VFunc (object_prototype_ref + 6) 6);
   ("isPrototypeOf", VFunc (object_prototype_ref + 7) 7);
   ("propertyIsEnumerable", VFunc (object_prototype_ref + 8) 8);
   ("toString", VFunc (object_prototype_ref + 9) 9);
   ("valueOf", VFunc (object_prototype_ref + 10) 10);
   ("toLocaleString", VFunc (object_prototype_ref + 11) 11);
   ("__proto__", VInst object_prototype_ref 0 [] None)]%string.

(** [b[key]] on a plain object: its own property, else the one it
    inherits from [Object.prototype], else [undefined]. *)
Definition plain_get (fs : list (string * Value)) (k : string) : Value :=
  match find_field fs k with
  | Some v => v
  | None => get_field object_prototype k
  end.

(** [typeof a.equals === 'function'], giving the function's identity.  An
    own property [equals] hides the inherited one, whatever it holds;
    [Object.prototype] has no [equals]. *)
Definition equals_of (a : Value) : option nat :=
  match a with
  | VPlain _ fs =>
      match find_field fs "equals" with Some (VFunc _ m) => Some m | _ => None end
  | VInst _ _ fs pe =>
      match find_field fs "equals" with
      | Some (VFunc _ m) => Some m
      | Some _ => None
      | None => pe
      end
  | _ => None
  end.

(** [b.has(key)] and [b.get(key)] on a Map's entries (keys are distinct). *)
Fixpoint map_has (es : list (Value * Value)) (k : Value) : bool :=
  match es with
  | [] => false
  | (k', _) :: es' => same_value_zero k k' || map_has es' k
  end.

Fixpoint map_get (es : list (Value * Value)) (k : Value) : Value :=
  match es with
  | [] => VUndef
  | (k', v) :: es' => if same_value_zero k k' then v else map_get es' k
  end.

(** The fast-path test of line 84-88: [null], [undefined] or a primitive. *)
Definition is_primitive_item (v : Value) : bool :=
  is_nullish v ||
  (negb (String.eqb (typeof v) "object") && negb (String.eqb (typeof v) "function")).

Definition is_plain (v : Value) : bool :=
  match v with VPlain _ _ => true | _ => false end.

(** ** deepEqual (lines 49-149)

    The custom [equals] methods are user code: [call_equals m a b] runs
    method [m] with receiver [a] and argument [b]. *)
Section DeepEqual.

Variable call_equals : nat -> Value -> Value -> Outcome.

(** The local loops are the [every]/[some]/[for ... of] loops of lines
    96, 102-107, 113-119 and 131-137: each callback result is coerced by
    ToBoolean, and a thrown exception propagates. *)
Fixpoint deepEqual (a b : Value) (depth : Z) {struct a} : Outcome :=
  let every_idx :=
    fix go (xs : list Value) (ys : list Value) : Outcome :=
      match xs with
      | [] => Ret (VBool true)
      | x :: xs' =>
          match deepEqual x (hd VUndef ys) (depth - 1) with
          | Throw e => Throw e
          | Ret v => if truthy v then go xs' (tl ys) else Ret (VBool false)
          end
      end in
  let map_loop :=
    fix go (es : list (Value * Value)) (bes : list (Value * Value)) : Outcome :=
      match es with
      | [] => Ret (VBool true)
      | (k, v) :: es' =>
          if negb (map_has bes k) then Ret (VBool false)
          else match deepEqual v (map_get bes k) (depth - 1) with
               | Throw e => Throw e
               | Ret r => if negb (truthy r) then Ret (VBool false) else go es' bes
               end
      end in
  let set_loop :=
    fix go (xs : list Value) (ys : list Value) : Outcome :=
      match xs with
      | [] => Ret (VBool true)
      | x :: xs' =>
          let some :=
            fix sm (cs : list Value) : Outcome :=
              match cs with
              | [] => Ret (VBool false)
              | c :: cs' =>
                  match deepEqual x c (depth - 1) with
                  | Throw e => Throw e
                  | Ret r => if truthy r then Ret (VBool true) else sm cs'
                  end
              end in
          match some ys with
          | Throw e => Throw e
          | Ret r => if negb (truthy r) then Ret (VBool false) else go xs' ys
          end
      end in
  let keys_loop :=
    fix go (fs : list (string * Value)) (bfs : list (string * Value)) : Outcome :=
      match fs with
      | [] => Ret (VBool true)
      | (k, v) :: fs' =>
          match deepEqual v (plain_get bfs k) (depth - 1) with
          | Throw e => Throw e
          | Ret r => if truthy r then go fs' bfs else Ret (VBool false)
          end
      end in
  if Z.leb depth 0 then Ret (VBool false)
  else if strict_eq a b then Ret (VBool true)
  else if is_nullish a || is_nullish b then Ret (VBool false)
  else if negb (String.eqb (typeof a) (typeof b)) then Ret (VBool false)
  else if negb (String.eqb (typeof a) "object") && negb (String.eqb (typeof a) "function")
  then Ret (VBool false)
  else match a, b with
  | VDate _ ta, VDate _ tb => Ret (VBool (num_strict_eq ta tb))
  | VRegExp _ sa, VRegExp _ sb => Ret (VBool (String.eqb sa sb))
  | VArray _ xs, VArray _ ys =>
      if negb (Nat.eqb (length xs) (length ys)) then Ret (VBool false)
      else if forallb is_primitive_item xs
      then Ret (VBool (forallb (fun p => strict_eq (fst p) (snd p)) (combine xs ys)))
      else every_idx xs ys
  | VMap _ es, VMap _ bes =>
      if negb (Nat.eqb (length es) (length bes)) then Ret (VBool false)
      else map_loop es bes
  | VSet _ xs, VSet _ ys =>
      if negb (Nat.eqb (length xs) (length ys)) then Ret (VBool false)
      else set_loop xs ys
  | VPlain _ fa, VPlain _ fb =>
      if negb (Nat.eqb (length fa) (length fb)) then Ret (VBool false)
      else keys_loop fa fb
  | _, _ =>
      match equals_of a with
      | Some m => call_equals m a b
      | None => Ret (VBool false)
      end
  end.

End DeepEqual.


Section DeepEqualStack.

Variable call_equals : nat -> Value -> Value -> Outcome.


End DeepEqualStack.



(** ** createMemoizedMethod (lines 159-200): the cache cell *)

(** The three closure variables [previousArgs], [calledOnce] and
    [cachedResult] of one [createMemoizedMethod] call. *)
Record Cell := mkCell {
  previousArgs : list Value;
  calledOnce : bool;
  cachedResult : Value
}.

(** The state right after [createMemoizedMethod] (lines 164-166). *)
Definition initCell : Cell := mkCell [] false VUndef.

Section Cell.

Variable call_equals : nat -> Value -> Value -> Outcome.

(** [args.every((arg, i) => deepEqual(arg, previousArgs[i]))] with the
    default depth 100. *)
Fixpoint args_every (args prev : list Value) : Outcome :=
  match args with
  | [] => Ret (VBool true)
  | a :: args' =>
      match deepEqual call_equals a (hd VUndef prev) 100 with
      | Throw e => Throw e
      | Ret v => if truthy v then args_every args' (tl prev) else Ret (VBool false)
      end
  end.

(** [isSame] (lines 169-172), with its short-circuit [&&]. *)
Definition isSame (c : Cell) (args : list Value) : Outcome :=
  if calledOnce c then
    if Nat.eqb (length (previousArgs c)) (length args) then args_every args (previousArgs c)
    else Ret (VBool false)
  else Ret (VBool false).

(** [memoizedFn] (lines 168-183).  [originalMethod this args] runs the
    wrapped method; the result records the new cell, what the call
    returned or threw, and how many times [originalMethod] ran. *)
Definition memoizedFn (originalMethod : Value -> list Value -> Outcome)
    (c : Cell) (this : Value) (args : list Value) : Cell * Outcome * nat :=
  match isSame c args with
  | Throw e => (c, Throw e, 0%nat)
  | Ret same =>
      if truthy same then (c, Ret (cachedResult c), 0%nat)
      else
        (* [previousArgs = [...args]] runs before the method *)
        let c1 := mkCell args (calledOnce c) (cachedResult c) in
        match originalMethod this args with
        | Throw e => (c1, Throw e, 1%nat)
        | Ret r => (mkCell args true r, Ret r, 1%nat)
        end
  end.

End Cell.

(** [memoizedFn.clearMemo] (lines 185-189). *)
Definition clearMemo (c : Cell) : Cell := mkCell [] false VUndef.

(** [memoizedFn] for a method that may call back into the same memoized
    function.  [memoizedFn] above is the case of a method that does not:
    [originalMethod] is then a plain function of [this] and the arguments.
    In general the method is a program that may call the memoized function
    again ([this2.m(...args2)] reaching the same closure, e.g. recursion)
    and continue with what that call returned or threw, or call
    [m.clearMemo()]; these nested calls read and write the same closure
    variables [previousArgs], [calledOnce] and [cachedResult]. *)
Inductive Prog :=
| PDone (o : Outcome)
| PSelf (this : Value) (args : list Value) (k : Outcome -> Prog)
| PClear (k : Prog).

(** Running the method's program against the cell, [self] being the
    memoized function; the count is the number of runs of the method in
    the nested calls. *)
Fixpoint run_body (self : Cell -> Value -> list Value -> option (Cell * Outcome * nat))
    (c : Cell) (p : Prog) : option (Cell * Outcome * nat) :=
  match p with
  | PDone o => Some (c, o, 0%nat)
  | PSelf this args k =>
      match self c this args with
      | None => None
      | Some (c1, o, n) =>
          match run_body self c1 (k o) with
          | None => None
          | Some (c2, o2, m) => Some (c2, o2, (n + m)%nat)
          end
      end
  | PClear k => run_body self (clearMemo c) k
  end.

(** [memoizedFn] (lines 168-183) with re-entrant calls.  [fuel] bounds the
    nesting of calls ([None]: the bound was reached, as by a method that
    recurses forever).  Line 178 stores the arguments before line 179 runs
    the method; line 179 stores the method's result in [cachedResult] and
    line 180 sets [calledOnce] once it returns, over whatever the nested
    calls left in [previousArgs]. *)
Fixpoint memoizedFn_re (call_equals : nat -> Value -> Value -> Outcome)
    (originalMethod : Value -> list Value -> Prog) (fuel : nat)
    (c : Cell) (this : Value) (args : list Value) : option (Cell * Outcome * nat) :=
  match fuel with
  | O => None
  | S fuel' =>
      match isSame call_equals c args with
      | Throw e => Some (c, Throw e, 0%nat)
      | Ret same =>
          if truthy same then Some (c, Ret (cachedResult c), 0%nat)
          else
            let c1 := mkCell args (calledOnce c) (cachedResult c) in
            match run_body (memoizedFn_re call_equals originalMethod fuel') c1 (originalMethod this args) with
            | None => None
            | Some (c2, Throw e, n) => Some (c2, Throw e, S n)
            | Some (c2, Ret r, n) => Some (mkCell (previousArgs c2) true r, Ret r, S n)
            end
      end
  end.



(** ** The decorator [memoized] and [clearAllMemoized] (lines 207-332)

    A class declares each member as a memoized method, decorated in the
    legacy form (descriptor, lines 294-331) or the Stage-3 form (lines
    268-292), or as a memoized getter (both forms behave alike).  The
    world holds, for every instance [o]:
    - the cells of its legacy methods, at [KInst o n]: present exactly when
      the getter of lines 322-330 has defined the own property [n];
    - its [__memoizedClearFns] registry, mapping a method name to the cell
      its [clearMemo] resets;
    - the values its memoized getters have installed as own properties.
    A Stage-3 method has one cell per class, at [KClass n]: the
    [createMemoizedMethod] of line 288 runs once, when the class is
    decorated.  [evals] counts the runs of underlying methods and getters,
    like the [computeCount] of the tests. *)

Inductive CellKey := KInst (o : nat) (n : string) | KClass (n : string).

#[global] Instance CellKey_eq_dec : EqDecision CellKey.
Proof. solve_decision. Defined.

#[global] Instance CellKey_countable : Countable CellKey.
Proof.
  apply (inj_countable'
    (fun k => match k with KInst o n => inl (o, n) | KClass n => inr n end)
    (fun s => match s with inl (o, n) => KInst o n | inr n => KClass n end)).
  by intros [].
Defined.

Inductive DecoratorForm := Legacy | Stage3.

Inductive Member := MMethod (form : DecoratorForm) | MGetter.

Record World := mkWorld {
  cells : gmap CellKey Cell;
  registry : gmap nat (gmap string CellKey);
  gvals : gmap (nat * string) Value;
  evals : nat
}.

Definition emptyWorld : World := mkWorld ∅ ∅ ∅ 0.

(** The receiver [this] of instance [o]. *)
Definition this_of (o : nat) : Value := VInst o 0 [] None.

(** [Object.values(fns).forEach(clearFn => clearFn())]: each callback
    resets the cell it closes over. *)
Definition run_clear_fns (ks : list CellKey) (cs : gmap CellKey Cell) : gmap CellKey Cell :=
  foldr (fun k acc => alter clearMemo k acc) cs ks.

(** [clearAllMemoized] (lines 207-211). *)
Definition clearAllMemoized (w : World) (o : nat) : World :=
  match registry w !! o with
  | None => w
  | Some fns =>
      mkWorld (run_clear_fns (snd <$> map_to_list fns) (cells w))
              (registry w) (gvals w) (evals w)
  end.

Section Instances.

Variable call_equals : nat -> Value -> Value -> Outcome.
(** The class: its members, the bodies of its methods (given the number of
    earlier evaluations, [this] and the arguments) and of its getters. *)
Variable decl : string -> option Member.
Variable method_body : string -> nat -> Value -> list Value -> Outcome.
Variable getter_body : string -> nat -> Value -> Outcome.

(** The cell a key designates; a Stage-3 cell not yet used is still the
    one [createMemoizedMethod] made. *)
Definition cell_at (w : World) (k : CellKey) : Cell :=
  match cells w !! k with Some c => c | None => initCell end.

(** Reading [o.n] for a memoized method: the cell the returned function
    closes over.  Legacy form: the first read runs the descriptor's getter
    (lines 322-330), which calls [createMemoizedMethod(value, n, this)]:
    a fresh cell whose [clearMemo] is stored in [this.__memoizedClearFns[n]]
    (lines 191-197), then defines [n] as an own property. *)
Definition access_method (w : World) (form : DecoratorForm) (o : nat) (n : string)
    : World * CellKey :=
  match form with
  | Stage3 => (w, KClass n)
  | Legacy =>
      match cells w !! KInst o n with
      | Some _ => (w, KInst o n)
      | None =>
          let fns := match registry w !! o with Some f => f | None => ∅ end in
          (mkWorld (<[KInst o n := initCell]> (cells w))
                   (<[o := <[n := KInst o n]> fns]> (registry w))
                   (gvals w) (evals w), KInst o n)
      end
  end.

Definition type_error : Value := VStr "TypeError".

(** [o.n(...args)] *)
Definition call (w : World) (o : nat) (n : string) (args : list Value) : World * Outcome :=
  match decl n with
  | Some (MMethod form) =>
      let '(w1, k) := access_method w form o n in
      let '(c', out, runs) :=
        memoizedFn call_equals (method_body n (evals w1)) (cell_at w1 k) (this_of o) args in
      (mkWorld (<[k := c']> (cells w1)) (registry w1) (gvals w1) (evals w1 + runs)%nat, out)
  | _ => (w, Throw type_error)
  end.

(** [o.n.clearMemo()] *)
Definition call_clearMemo (w : World) (o : nat) (n : string) : World :=
  match decl n with
  | Some (MMethod form) =>
      let '(w1, k) := access_method w form o n in
      mkWorld (<[k := clearMemo (cell_at w1 k)]> (cells w1)) (registry w1) (gvals w1) (evals w1)
  | _ => w
  end.

(** Reading [o.n] for a memoized getter (lines 274-284 and 301-311): the
    first read that returns normally defines [n] as an own data property
    holding the value, which shadows the getter from then on. *)
Definition get_prop (w : World) (o : nat) (n : string) : World * Outcome :=
  match gvals w !! (o, n) with
  | Some v => (w, Ret v)
  | None =>
      match getter_body n (evals w) (this_of o) with
      | Ret v => (mkWorld (cells w) (registry w) (<[(o, n) := v]> (gvals w)) (S (evals w)), Ret v)
      | Throw e => (mkWorld (cells w) (registry w) (gvals w) (S (evals w)), Throw e)
      end
  end.


(** A program driving the instances. *)
Inductive Op :=
| OpRead (o : nat) (n : string)                (* [o.n] on a method, not called *)
| OpCall (o : nat) (n : string) (args : list Value)
| OpClearMemo (o : nat) (n : string)
| OpClearAll (o : nat)
| OpGet (o : nat) (n : string).

Definition step (w : World) (op : Op) : World :=
  match op with
  | OpRead o n =>
      match decl n with
      | Some (MMethod form) => fst (access_method w form o n)
      | _ => w
      end
  | OpCall o n args => fst (call w o n args)
  | OpClearMemo o n => call_clearMemo w o n
  | OpClearAll o => clearAllMemoized w o
  | OpGet o n =>
      match decl n with
      | Some MGetter => fst (get_prop w o n)
      | _ => w
      end
  end.

Definition run (w : World) (ops : list Op) : World := fold_left step ops w.

Definition reachable (w : World) : Prop := exists ops, w = run emptyWorld ops.

End Instances.

(** [instance.__memoizedClearFns[n]]: the cell that callback resets. *)
Definition reg_lookup (w : World) (o : nat) (n : string) : option CellKey :=
  match registry w !! o with Some fns => fns !! n | None => None end.

(** The registry of every instance names exactly its own legacy cells. *)
Definition registry_ok (w : World) : Prop :=
  forall o n k, reg_lookup w o n = Some k <-> k = KInst o n /\ is_Some (cells w !! KInst o n).

(** ** The time-bounded cell of [memoizedTTL] *)

(** Modelled from the spec: the implementation of [memoizedTTL(ttl)] is not
    in the source tree (only its tests, example and README are); this
    follows spec section 4.3: the plain cell plus [computedAt] and a fixed
    [ttlMillis], a hit needing [hasRun], equal arguments (the rule of
    section 4.2) and [now - computedAt < ttlMillis]; a miss recomputes and
    stamps [computedAt := now]; a failing computation leaves the cell as it
    was (section 7). *)
Record TTLCell := mkTTLCell {
  storedArgs : list Value;
  hasRun : bool;
  storedResult : Value;
  computedAt : option Z
}.

Definition initTTLCell : TTLCell := mkTTLCell [] false VUndef None.

Section TTL.

(** The equality engine, as a predicate on two values. *)
Variable equal : Value -> Value -> bool.

Fixpoint all_equal (args stored : list Value) : bool :=
  match args, stored with
  | [], [] => true
  | a :: args', s :: stored' => equal a s && all_equal args' stored'
  | _, _ => false
  end.

(** The argument rule of section 4.2: same length, [equal] position-wise. *)
Definition args_equal (args stored : list Value) : bool :=
  Nat.eqb (length args) (length stored) && all_equal args stored.

Definition ttl_hit (ttlMillis now : Z) (c : TTLCell) (args : list Value) : bool :=
  hasRun c && args_equal args (storedArgs c) &&
  match computedAt c with
  | Some t => Z.ltb (now - t) ttlMillis
  | None => false
  end.

(** [invoke(args)] at wall-clock time [now]; like [memoizedFn], it also
    reports how many times [compute] ran. *)
Definition ttl_invoke (ttlMillis now : Z) (compute : list Value -> Outcome)
    (c : TTLCell) (args : list Value) : TTLCell * Outcome * nat :=
  if ttl_hit ttlMillis now c args then (c, Ret (storedResult c), 0%nat)
  else match compute args with
       | Ret r => (mkTTLCell args true r (Some now), Ret r, 1%nat)
       | Throw e => (c, Throw e, 1%nat)
       end.

Definition ttl_invalidate (c : TTLCell) : TTLCell := initTTLCell.

End TTL.

(** ** Concrete inputs *)

(** An environment without custom [equals] methods that could be reached. *)
Definition no_custom_equals : nat -> Value -> Value -> Outcome :=
  fun _ _ _ => Ret (VBool false).

(** Every custom [equals] answers [true]. *)
Definition always_equals : nat -> Value -> Value -> Outcome :=
  fun _ _ _ => Ret (VBool true).

(** A custom [equals] that throws. *)
Definition throwing_equals : nat -> Value -> Value -> Outcome :=
  fun _ _ _ => Throw (VStr "equals failed").

Definition is_object (v : Value) : bool :=
  match obj_ref v with Some _ => true | None => false end.

(** Arrays, Maps, Sets, Dates and RegExps: the shapes of lines 69-120. *)
Definition is_special (v : Value) : bool :=
  match v with
  | VArray _ _ | VMap _ _ | VSet _ _ | VDate _ _ | VRegExp _ _ => true
  | _ => false
  end.

(** An equality engine answering [===] (enough for primitive arguments). *)
Definition Value_eqb_prim (a b : Value) : bool := strict_eq a b.

(** A method [m(x)] that throws for [x = 2] and returns [10 * x] otherwise. *)
Definition fail_on_two : Value -> list Value -> Outcome :=
  fun _ args =>
    match args with
    | [VNum (NFin 2)] => Throw (VStr "boom")
    | [VNum (NFin z)] => Ret (VNum (NFin (10 * z)))
    | _ => Ret VUndef
    end.

(** [add(a, b)] of the tests. *)
Definition add_method : Value -> list Value -> Outcome :=
  fun _ args =>
    match args with
    | [VNum (NFin a); VNum (NFin b)] => Ret (VNum (NFin (a + b)))
    | _ => Ret (VNum NNaN)
    end.

(** A class with two legacy-decorated methods, one Stage-3-decorated
    method and a memoized getter.  Every method returns the identity of
    its receiver; the getter throws on the first evaluation of the run
    (an external resource not ready yet) and returns 42 afterwards. *)
Definition demo_decl (n : string) : option Member :=
  if String.eqb n "method1" then Some (MMethod Legacy)
  else if String.eqb n "method2" then Some (MMethod Legacy)
  else if String.eqb n "shared" then Some (MMethod Stage3)
  else if String.eqb n "value" then Some MGetter
  else None.

Definition demo_body : string -> nat -> Value -> list Value -> Outcome :=
  fun _ _ this _ =>
    match this with
    | VInst o _ _ _ => Ret (VNum (NFin (Z.of_nat o)))
    | _ => Ret VUndef
    end.

Definition demo_getter : string -> nat -> Value -> Outcome :=
  fun _ ev _ => if Nat.eqb ev 0 then Throw (VStr "not ready") else Ret (VNum (NFin 42)).

(** Two arrays built separately, nested [n] levels deep: each level holds
    the next one and the innermost is empty.  Copy [tag] gives the array
    at level [k] the reference [2 * k + tag], so no array of one copy is
    [===] to an array of the other. *)
Fixpoint nested_array (tag n : nat) : Value :=
  match n with
  | O => VArray tag []
  | S n' => VArray (2 * n + tag) [nested_array tag n']
  end.


(** The cell behind [o.n] for a method decorated in form [form]. *)
Definition method_cell (form : DecoratorForm) (o : nat) (n : string) : CellKey :=
  match form with Legacy => KInst o n | Stage3 => KClass n end.

(** ** Structural induction on values *)

Section ValueInd.

Variable P : Value -> Prop.
Hypothesis HUndef : P VUndef.
Hypothesis HNull : P VNull.
Hypothesis HBool : forall b, P (VBool b).
Hypothesis HNum : forall n, P (VNum n).
Hypothesis HStr : forall s, P (VStr s).
Hypothesis HSym : forall i, P (VSym i).
Hypothesis HArray : forall r xs, Forall P xs -> P (VArray r xs).
Hypothesis HDate : forall r t, P (VDate r t).
Hypothesis HRegExp : forall r s, P (VRegExp r s).
Hypothesis HMap : forall r es, Forall (fun e => P (snd e)) es -> P (VMap r es).
Hypothesis HSet : forall r xs, Forall P xs -> P (VSet r xs).
Hypothesis HPlain : forall r fs, Forall (fun f => P (snd f)) fs -> P (VPlain r fs).
Hypothesis HInst : forall r c fs pe, P (VInst r c fs pe).
Hypothesis HFunc : forall r f, P (VFunc r f).

Fixpoint value_ind (v : Value) : P v :=
  match v with
  | VUndef => HUndef
  | VNull => HNull
  | VBool b => HBool b
  | VNum n => HNum n
  | VStr s => HStr s
  | VSym i => HSym i
  | VArray r xs =>
      HArray r xs ((fix go (l : list Value) : Forall P l :=
        match l with [] => List.Forall_nil _ | x :: l' => @List.Forall_cons _ _ x l' (value_ind x) (go l') end) xs)
  | VDate r t => HDate r t
  | VRegExp r s => HRegExp r s
  | VMap r es =>
      HMap r es ((fix go (l : list (Value * Value)) : Forall (fun e => P (snd e)) l :=
        match l with
        | [] => List.Forall_nil _
        | (k, x) :: l' => @List.Forall_cons _ _ (k, x) l' (value_ind x) (go l')
        end) es)
  | VSet r xs =>
      HSet r xs ((fix go (l : list Value) : Forall P l :=
        match l with [] => List.Forall_nil _ | x :: l' => @List.Forall_cons _ _ x l' (value_ind x) (go l') end) xs)
  | VPlain r fs =>
      HPlain r fs ((fix go (l : list (string * Value)) : Forall (fun f => P (snd f)) l :=
        match l with
        | [] => List.Forall_nil _
        | (k, x) :: l' => @List.Forall_cons _ _ (k, x) l' (value_ind x) (go l')
        end) fs)
  | VInst r c fs pe => HInst r c fs pe
  | VFunc r f => HFunc r f
  end.

End ValueInd.

(** ** Lemmas on deepEqual *)

Lemma deepEqual_depth_guard eqs a b d :
  d <= 0 -> deepEqual eqs a b d = Ret (VBool false).
Proof.
  intros Hd. assert (E : Z.leb d 0 = true) by (apply Z.leb_le; exact Hd).
  destruct a; cbn [deepEqual]; rewrite E; reflexivity.
Qed.

Lemma strict_eq_refl x : x <> VNum NNaN -> strict_eq x x = true.
Proof.
  intros H; destruct x as [| |b|[z|]|s|i|r ?|r ?|r ?|r ?|r ?|r ?|r ? ? ?|r ?]; simpl;
    try reflexivity; unfold ref_eq; simpl;
    try apply Nat.eqb_refl; try apply Bool.eqb_reflx; try apply Z.eqb_refl;
    try apply String.eqb_refl; congruence.
Qed.

Ltac split_ifs :=
  repeat match goal with
  | |- context [if ?c then _ else _] => destruct c
  end.

Section BooleanEquals.

Variable eqs : nat -> Value -> Value -> Outcome.
Hypothesis eqs_bool : forall m x y, exists bb, eqs m x y = Ret (VBool bb).

Lemma deepEqual_returns_bool (a : Value) : forall b d, exists bb, deepEqual eqs a b d = Ret (VBool bb).
Proof.
  induction a using value_ind; intros w d; cbn [deepEqual]; split_ifs; eauto;
    destruct w; eauto.
  all: try (match goal with |- context [equals_of ?a] => destruct (equals_of a) end; eauto).
  all: split_ifs; eauto.
  - (* arrays: the [every] of line 96 *)
    match goal with H : Forall _ _ |- _ => rename H into Hxs end.
    generalize xs0; induction Hxs as [|x l Hx Hl IH]; intros ys; cbn; [eauto|].
    destruct (Hx (hd VUndef ys) (d - 1)) as [bb E]; rewrite E; destruct (truthy _); eauto.
  - (* Maps: lines 102-107 *)
    match goal with H : Forall _ _ |- _ => rename H into Hes end.
    induction Hes as [|[k x] l Hx Hl IH]; cbn in *; [eauto|].
    destruct (negb (map_has entries k)); [eauto|].
    destruct (Hx (map_get entries k) (d - 1)) as [bb E]; rewrite E; destruct (negb _); eauto.
  - (* Sets: lines 113-119 *)
    match goal with H : Forall _ _ |- _ => rename H into Hxs end.
    induction Hxs as [|x l Hx Hl IH]; cbn; [eauto|].
    assert (Hsm : forall cs, exists bb,
      (fix sm (cs : list Value) : Outcome :=
         match cs with
         | [] => Ret (VBool false)
         | c :: cs' =>
             match deepEqual eqs x c (d - 1) with
             | Ret r => if truthy r then Ret (VBool true) else sm cs'
             | Throw e => Throw e
             end
         end) cs = Ret (VBool bb)).
    { induction cs as [|c cs IHcs]; cbn; [eauto|].
      destruct (Hx c (d - 1)) as [bb E]; rewrite E; destruct (truthy _); eauto. }
    destruct (Hsm xs0) as [bb E]; rewrite E; destruct (negb _); eauto.
  - (* plain objects: lines 131-137 *)
    match goal with H : Forall _ _ |- _ => rename H into Hfs end.
    induction Hfs as [|[k x] l Hx Hl IH]; cbn in *; [eauto|].
    destruct (Hx (plain_get fields k) (d - 1)) as [bb E]; rewrite E; destruct (truthy _); eauto.
Qed.

End BooleanEquals.

Lemma strict_eq_objects a b : is_object a = true -> strict_eq a b = ref_eq a b.
Proof. destruct a; try discriminate; destruct b; reflexivity. Qed.

(** ** deepEqual on a bounded call stack *)





(** ** Claims on deepEqual *)

(** C8 (amended): with any positive depth, in particular the default 100,
    [deepEqual(x, x)] is [true] for every value other than [NaN]: the
    identity test of line 54 answers before any recursion. *)
Theorem deepEqual_reflexive_except_NaN eqs x d :
  0 < d -> x <> VNum NNaN -> deepEqual eqs x x d = Ret (VBool true).
Proof.
  intros Hd Hx. assert (E : Z.leb d 0 = false) by (apply Z.leb_gt; lia).
  pose proof (strict_eq_refl x Hx) as Hs.
  destruct x; cbn [deepEqual]; rewrite E, Hs; reflexivity.
Qed.

Lemma deepEqual_reflexive_except_NaN_witness :
  0 < 100 /\ VArray 1 [VNum NNaN] <> VNum NNaN /\
  deepEqual no_custom_equals (VArray 1 [VNum NNaN]) (VArray 1 [VNum NNaN]) 100 = Ret (VBool true).
Proof.
  split; [lia|]. split; [discriminate|].
  apply deepEqual_reflexive_except_NaN; [lia | discriminate].
Defined.

(** C8 fails at [NaN]: [deepEqual(NaN, NaN)] is [false] at the default
    depth, although [NaN] does not nest at all. *)
Lemma deepEqual_NaN_not_reflexive :
  deepEqual no_custom_equals (VNum NNaN) (VNum NNaN) 100 = Ret (VBool false).
Proof. reflexivity. Qed.




(** C10: two distinct objects, neither an array, Map, Set, Date nor
    RegExp, not both plain, the first without an [equals] function, are
    unequal whatever their fields. *)
Theorem deepEqual_user_objects_identity_only eqs a b d :
  is_object a = true -> is_object b = true -> ref_eq a b = false ->
  is_special a = false -> is_special b = false ->
  (is_plain a && is_plain b) = false -> equals_of a = None ->
  deepEqual eqs a b d = Ret (VBool false).
Proof.
  intros Ha Hb Hr Hsa Hsb Hp He.
  pose proof (strict_eq_objects a b Ha) as Hs. rewrite Hr in Hs.
  destruct a; try discriminate; destruct b; try discriminate;
    cbn [deepEqual]; rewrite Hs; split_ifs; try reflexivity;
    cbn in *; try discriminate; try rewrite He; reflexivity.
Qed.

(** An own [equals: null] hides the [equals] method of the class: the
    first object exposes no [equals] function, and the answer is [false]
    even with an [equals] method that always answers [true]. *)
Lemma deepEqual_user_objects_identity_only_witness :
  equals_of (VInst 1 7 [("x"%string, VNum (NFin 1)); ("equals"%string, VNull)] (Some 0%nat)) = None /\
  deepEqual always_equals
    (VInst 1 7 [("x"%string, VNum (NFin 1)); ("equals"%string, VNull)] (Some 0%nat))
    (VInst 2 7 [("x"%string, VNum (NFin 1)); ("equals"%string, VNull)] (Some 0%nat)) 100
  = Ret (VBool false).
Proof.
  split; [reflexivity|].
  apply deepEqual_user_objects_identity_only; reflexivity.
Defined.

(** ** Lemmas on the cache cell *)

Section CellLemmas.

Variable eqs : nat -> Value -> Value -> Outcome.


Lemma args_every_decides
    (Hwb : forall m x y, exists bb, eqs m x y = Ret (VBool bb)) args prev :
  length args = length prev ->
  (args_every eqs args prev = Ret (VBool true) /\ Forall2 (fun a p => deepEqual eqs a p 100 = Ret (VBool true)) args prev) \/
  (args_every eqs args prev = Ret (VBool false) /\ ~ Forall2 (fun a p => deepEqual eqs a p 100 = Ret (VBool true)) args prev).
Proof.
  revert prev; induction args as [|a args IH]; intros [|p prev] Hlen;
    cbn [length] in Hlen; try discriminate.
  - left; split; [reflexivity | constructor].
  - cbn [args_every hd tl].
    destruct (deepEqual_returns_bool eqs Hwb a p 100) as [[|] E]; rewrite E; cbn [truthy].
    + destruct (IH prev) as [[E1 F]|[E1 F]]; [congruence| |].
      * left; split; [exact E1 | constructor; [exact E | exact F]].
      * right; split; [exact E1 | intros HF; inversion HF; contradiction].
    + right; split; [reflexivity | intros HF; inversion HF as [|? ? ? ? Hs]; congruence].
Qed.



(** Without a call back into the memoized method, [memoizedFn_re] is
    [memoizedFn]. *)
Lemma memoizedFn_re_no_nested body om fuel c this args :
  (forall t a, body t a = PDone (om t a)) ->
  memoizedFn_re eqs body (S fuel) c this args = Some (memoizedFn eqs om c this args).
Proof.
  intros Hb. cbn [memoizedFn_re]. unfold memoizedFn.
  destruct (isSame eqs c args) as [v|e]; [|reflexivity].
  destruct (truthy v); [reflexivity|].
  rewrite Hb. cbn [run_body]. destruct (om this args); reflexivity.
Qed.

End CellLemmas.

(** ** Claims on the cache cell *)




(** A custom [equals] that throws during the comparison: the call neither
    hits nor runs the method. *)
Lemma memoizedFn_equals_throw_skips_method :
  memoizedFn_re throwing_equals (fun t a => PDone (add_method t a)) 10
    (mkCell [VInst 1 7 [] (Some 0%nat)] true (VNum (NFin 5))) (this_of 0)
    [VInst 2 7 [] (Some 0%nat)]
  = Some (mkCell [VInst 1 7 [] (Some 0%nat)] true (VNum (NFin 5)), Throw (VStr "equals failed"), 0%nat).
Proof. reflexivity. Qed.

(** C3: [m(1)] returns 10; [m(2)] throws, but line 178 has already stored
    [2] as [previousArgs], so the cell is not in its pre-call state; the
    retry [m(2)] then hits and returns the 10 computed for [m(1)] without
    running the method. *)
Theorem memoizedFn_failed_call_poisons_cell :
  let this := this_of 0 in
  let '(c1, o1, _) := memoizedFn no_custom_equals fail_on_two initCell this [VNum (NFin 1)] in
  let '(c2, o2, _) := memoizedFn no_custom_equals fail_on_two c1 this [VNum (NFin 2)] in
  let '(_, o3, n3) := memoizedFn no_custom_equals fail_on_two c2 this [VNum (NFin 2)] in
  o1 = Ret (VNum (NFin 10)) /\ o2 = Throw (VStr "boom") /\
  previousArgs c1 = [VNum (NFin 1)] /\ previousArgs c2 = [VNum (NFin 2)] /\
  o3 = Ret (VNum (NFin 10)) /\ n3 = 0%nat.
Proof. vm_compute. repeat split. Qed.

(** C6: [clearMemo] empties [previousArgs], clears [cachedResult] and
    [calledOnce]; it is idempotent and leaves a fresh cell as it is; the
    next call runs the method once and returns what it returns. *)
Theorem clearMemo_resets eqs om c this args :
  clearMemo c = mkCell [] false VUndef /\
  clearMemo (clearMemo c) = clearMemo c /\
  clearMemo initCell = initCell /\
  snd (memoizedFn eqs om (clearMemo c) this args) = 1%nat /\
  snd (fst (memoizedFn eqs om (clearMemo c) this args)) = om this args.
Proof.
  unfold memoizedFn, isSame, clearMemo; cbn [calledOnce truthy].
  repeat split; destruct (om this args); reflexivity.
Qed.

(** ** Claim on the time-bounded cell *)

(** C2: a call hits exactly when the cell has run, the arguments are equal
    and less than [ttlMillis] has elapsed since [computedAt]; a hit returns
    the stored result and changes nothing; any other call runs the
    computation once, and when it returns [r] the cell stores the new
    arguments, [r] and [computedAt = now].  Once [now - computedAt >=
    ttlMillis] the call is a miss whatever the arguments. *)
Theorem ttl_invoke_expiry equal ttl now compute c args :
  let hitc := hasRun c = true /\ args_equal equal args (storedArgs c) = true /\
              exists t, computedAt c = Some t /\ now - t < ttl in
  (hitc -> ttl_invoke equal ttl now compute c args = (c, Ret (storedResult c), 0%nat)) /\
  (~ hitc -> exists c', ttl_invoke equal ttl now compute c args = (c', compute args, 1%nat) /\
     forall r, compute args = Ret r -> c' = mkTTLCell args true r (Some now)) /\
  (forall t, computedAt c = Some t -> ttl <= now - t -> ~ hitc).
Proof.
  intros hitc. unfold hitc. split; [|split].
  - intros [H1 [H2 [t [Ht Hlt]]]]. unfold ttl_invoke, ttl_hit.
    rewrite H1, H2, Ht. cbn [andb]. replace (now - t <? ttl) with true by (symmetry; apply Z.ltb_lt; exact Hlt).
    reflexivity.
  - intros Hnot. unfold ttl_invoke.
    assert (Hh : ttl_hit equal ttl now c args = false).
    { unfold ttl_hit. destruct (hasRun c) eqn:E1; [|reflexivity].
      destruct (args_equal equal args (storedArgs c)) eqn:E2; [|reflexivity].
      destruct (computedAt c) as [t|] eqn:E3; [|reflexivity].
      destruct (Z.ltb_spec (now - t) ttl); [|reflexivity].
      exfalso; apply Hnot; eauto. }
    rewrite Hh. destruct (compute args) as [v|e].
    + exists (mkTTLCell args true v (Some now)); split; [reflexivity|].
      intros r Hr; inversion Hr; reflexivity.
    + exists c; split; [reflexivity | discriminate].
  - intros t Ht Hge [_ [_ [t' [Ht' Hlt]]]]. rewrite Ht in Ht'. inversion Ht'; subst. lia.
Qed.

Lemma ttl_invoke_expiry_witness :
  ttl_invoke Value_eqb_prim 100 150 (fun _ => Ret (VStr "fresh"))
    (mkTTLCell [VStr "test"] true (VStr "old") (Some 0)) [VStr "test"]
  = (mkTTLCell [VStr "test"] true (VStr "fresh") (Some 150), Ret (VStr "fresh"), 1%nat).
Proof.
  destruct (proj1 (proj2 (ttl_invoke_expiry Value_eqb_prim 100 150 (fun _ => Ret (VStr "fresh"))
    (mkTTLCell [VStr "test"] true (VStr "old") (Some 0)) [VStr "test"])))
    as [c' [E Hc]].
  - apply (proj2 (proj2 (ttl_invoke_expiry Value_eqb_prim 100 150 (fun _ => Ret (VStr "fresh"))
      (mkTTLCell [VStr "test"] true (VStr "old") (Some 0)) [VStr "test"])) 0);
      [reflexivity | lia].
  - rewrite E, (Hc (VStr "fresh") eq_refl). reflexivity.
Defined.

(** ** Lemmas on the world of instances *)

Lemma run_clear_fns_notin ks cs k :
  k ∉ ks -> run_clear_fns ks cs !! k = cs !! k.
Proof.
  induction ks as [|k' ks IH]; intros Hk; [reflexivity|]. change (run_clear_fns (k' :: ks) cs) with (alter clearMemo k' (run_clear_fns ks cs)).
  rewrite lookup_alter_ne by (intros ->; apply Hk; left).
  apply IH. intros Hin; apply Hk; right; exact Hin.
Qed.

Lemma run_clear_fns_in ks cs k :
  k ∈ ks -> run_clear_fns ks cs !! k = clearMemo <$> cs !! k.
Proof.
  induction ks as [|k' ks IH]; intros Hk; [inversion Hk|]. change (run_clear_fns (k' :: ks) cs) with (alter clearMemo k' (run_clear_fns ks cs)).
  destruct (decide (k = k')) as [->|Hne].
  - rewrite lookup_alter_eq. destruct (decide (k' ∈ ks)) as [Hin|Hnin].
    + rewrite (IH Hin). destruct (cs !! k'); reflexivity.
    + rewrite (run_clear_fns_notin ks cs k' Hnin). reflexivity.
  - rewrite lookup_alter_ne by congruence. apply IH.
    apply list_elem_of_In in Hk; apply list_elem_of_In. destruct Hk; [congruence | assumption].
Qed.

Lemma run_clear_fns_is_Some ks cs k :
  is_Some (run_clear_fns ks cs !! k) <-> is_Some (cs !! k).
Proof.
  induction ks as [|k' ks IH]; [reflexivity|]. change (run_clear_fns (k' :: ks) cs) with (alter clearMemo k' (run_clear_fns ks cs)).
  rewrite lookup_alter_is_Some. exact IH.
Qed.

Lemma registry_ok_empty : registry_ok emptyWorld.
Proof.
  intros o n k. unfold reg_lookup; cbn [registry cells emptyWorld].
  rewrite !lookup_empty. split; [discriminate | intros [_ [? H]]; discriminate].
Qed.

(** Writing a cell that exists or is a class cell keeps the invariant. *)
Lemma registry_ok_write w k c g e :
  registry_ok w -> (forall o n, k = KInst o n -> is_Some (cells w !! k)) ->
  registry_ok (mkWorld (<[k := c]> (cells w)) (registry w) g e).
Proof.
  intros Hok Hk o n k'. specialize (Hok o n k').
  unfold reg_lookup in *; cbn [registry cells]. rewrite Hok. destruct (decide (k = KInst o n)) as [->|Hne].
  - rewrite lookup_insert_eq. specialize (Hk o n eq_refl).
    split; intros [? _]; split; eauto.
  - rewrite lookup_insert_ne by exact Hne. reflexivity.
Qed.

Lemma registry_ok_access w form o n :
  registry_ok w ->
  registry_ok (fst (access_method w form o n)) /\
  (form = Legacy -> snd (access_method w form o n) = KInst o n /\
                    is_Some (cells (fst (access_method w form o n)) !! KInst o n)) /\
  (form = Stage3 -> access_method w form o n = (w, KClass n)) /\
  evals (fst (access_method w form o n)) = evals w /\
  gvals (fst (access_method w form o n)) = gvals w.
Proof.
  intros Hok. destruct form; cbn [access_method].
  2:{ split; [exact Hok|]. split; [intros H; discriminate H|].
       split; [intros _; reflexivity|]. split; reflexivity. }
  destruct (cells w !! KInst o n) as [c|] eqn:E; cbn [fst snd].
  - split; [exact Hok|]. split; [intros _; split; [reflexivity | rewrite E; eauto]|].
    split; [intros H; discriminate H|]. split; reflexivity.
  - split; [|split; [intros _; split; [reflexivity | cbn [cells]; rewrite lookup_insert_eq; eauto]|]];
      [|split; [intros H; discriminate H | split; reflexivity]].
    intros o' n' k'. unfold registry_ok, reg_lookup in *; cbn [registry cells].
    destruct (decide (o' = o)) as [->|Ho].
    + rewrite lookup_insert_eq. destruct (decide (n' = n)) as [->|Hn].
      * rewrite !lookup_insert_eq. split; [intros H; inversion H; subst; split; eauto|].
        intros [-> _]; reflexivity.
      * rewrite lookup_insert_ne by congruence.
        rewrite (lookup_insert_ne (cells w) (KInst o n) (KInst o n')) by congruence.
        rewrite <- (Hok o n' k'). destruct (registry w !! o); [reflexivity|].
        rewrite lookup_empty; reflexivity.
    + rewrite lookup_insert_ne by congruence.
      rewrite (lookup_insert_ne (cells w) (KInst o n) (KInst o' n')) by congruence.
      apply Hok.
Qed.

Lemma memoizedFn_not_run_yet eqs om c this args :
  calledOnce c = false ->
  snd (memoizedFn eqs om c this args) = 1%nat /\ snd (fst (memoizedFn eqs om c this args)) = om this args.
Proof.
  intros H. unfold memoizedFn, isSame. rewrite H. cbn [truthy].
  destruct (om this args); split; reflexivity.
Qed.

Section InstanceProofs.

Variable call_equals : nat -> Value -> Value -> Outcome.
Variable decl : string -> option Member.
Variable method_body : string -> nat -> Value -> list Value -> Outcome.
Variable getter_body : string -> nat -> Value -> Outcome.

Lemma registry_ok_cell_write w form o n c g e :
  registry_ok w ->
  registry_ok (mkWorld (<[snd (access_method w form o n) := c]> (cells (fst (access_method w form o n))))
                       (registry (fst (access_method w form o n))) g e).
Proof.
  intros Hok. destruct (registry_ok_access w form o n Hok) as [Hok1 [HL [HS _]]].
  apply registry_ok_write; [exact Hok1|]. intros o' n' Hk.
  destruct form.
  - destruct (HL eq_refl) as [Ek Hs]. rewrite Ek in Hk |- *. inversion Hk; subst. exact Hs.
  - rewrite (HS eq_refl) in Hk. discriminate.
Qed.

Lemma registry_ok_clearAll w o : registry_ok w -> registry_ok (clearAllMemoized w o).
Proof.
  intros Hok. unfold clearAllMemoized. destruct (registry w !! o) as [fns|]; [|exact Hok].
  intros o' n' k'. unfold reg_lookup; cbn [registry cells].
  rewrite run_clear_fns_is_Some. apply (Hok o' n' k').
Qed.

Lemma registry_ok_step w op :
  registry_ok w -> registry_ok (step call_equals decl method_body getter_body w op).
Proof.
  intros Hok. destruct op as [o n|o n args|o n|o|o n]; cbn [step].
  - destruct (decl n) as [[form|]|]; [|exact Hok|exact Hok].
    exact (proj1 (registry_ok_access w form o n Hok)).
  - unfold call. destruct (decl n) as [[form|]|]; [|exact Hok|exact Hok].
    pose proof (registry_ok_cell_write w form o n) as Hw.
    destruct (access_method w form o n) as [w1 k].
    destruct (memoizedFn _ _ _ _ _) as [[c' out] runs]. apply Hw; exact Hok.
  - unfold call_clearMemo. destruct (decl n) as [[form|]|]; [|exact Hok|exact Hok].
    pose proof (registry_ok_cell_write w form o n) as Hw.
    destruct (access_method w form o n) as [w1 k]. apply Hw; exact Hok.
  - apply registry_ok_clearAll; exact Hok.
  - destruct (decl n) as [[]|]; try exact Hok. unfold get_prop.
    destruct (gvals w !! (o, n)); [exact Hok|].
    destruct (getter_body n (evals w) (this_of o)); exact Hok.
Qed.

Lemma registry_ok_run ops w :
  registry_ok w -> registry_ok (run call_equals decl method_body getter_body w ops).
Proof.
  revert w; induction ops as [|op ops IH]; intros w Hok; [exact Hok|].
  cbn [run fold_left]. apply IH, registry_ok_step, Hok.
Qed.

Lemma registry_ok_reachable w :
  reachable call_equals decl method_body getter_body w -> registry_ok w.
Proof. intros [ops ->]. apply registry_ok_run, registry_ok_empty. Qed.

End InstanceProofs.

Lemma clearAll_evals_gvals w o :
  evals (clearAllMemoized w o) = evals w /\ gvals (clearAllMemoized w o) = gvals w /\
  registry (clearAllMemoized w o) = registry w.
Proof. unfold clearAllMemoized; destruct (registry w !! o); repeat split. Qed.

Lemma clearAll_is_Some w o k :
  is_Some (cells (clearAllMemoized w o) !! k) <-> is_Some (cells w !! k).
Proof.
  unfold clearAllMemoized; destruct (registry w !! o); [|reflexivity].
  apply run_clear_fns_is_Some.
Qed.

Lemma clearAll_lookup_registered w o n :
  registry_ok w -> is_Some (cells w !! KInst o n) ->
  cells (clearAllMemoized w o) !! KInst o n = Some initCell.
Proof.
  intros Hok [c Hc].
  assert (Hr : reg_lookup w o n = Some (KInst o n)) by (apply Hok; split; eauto).
  unfold reg_lookup in Hr. unfold clearAllMemoized.
  destruct (registry w !! o) as [fns|] eqn:Eo; [|discriminate]. cbn [cells].
  rewrite run_clear_fns_in.
  - rewrite Hc; reflexivity.
  - apply list_elem_of_fmap. exists (n, KInst o n). split; [reflexivity|].
    apply elem_of_map_to_list; exact Hr.
Qed.

Lemma clearAll_lookup_other w o k :
  registry_ok w -> (forall n, k <> KInst o n) ->
  cells (clearAllMemoized w o) !! k = cells w !! k.
Proof.
  intros Hok Hk. unfold clearAllMemoized.
  destruct (registry w !! o) as [fns|] eqn:Eo; [|reflexivity]. cbn [cells].
  apply run_clear_fns_notin. intros Hin.
  apply list_elem_of_fmap in Hin as [[n k'] [Ek Hin]]. cbn [snd] in Ek; subst k'.
  apply elem_of_map_to_list in Hin.
  assert (Hr : reg_lookup w o n = Some k) by (unfold reg_lookup; rewrite Eo; exact Hin).
  apply Hok in Hr as [-> _]. exact (Hk n eq_refl).
Qed.

Section InstanceClaims.

Variable call_equals : nat -> Value -> Value -> Outcome.
Variable decl : string -> option Member.
Variable method_body : string -> nat -> Value -> list Value -> Outcome.
Variable getter_body : string -> nat -> Value -> Outcome.



(** A call of a legacy-decorated method of [o] touches no cell of another
    instance: the per-instance cells of lines 322-330. *)
Lemma call_legacy_keeps_other_instances w o n args o' n' :
  o' <> o -> decl n = Some (MMethod Legacy) ->
  cells (fst (call call_equals decl method_body w o n args)) !! KInst o' n' = cells w !! KInst o' n'.
Proof.
  intros Ho Hd. unfold call. rewrite Hd. cbn [access_method].
  destruct (cells w !! KInst o n) eqn:E; cbn [fst cells registry gvals evals];
    destruct (memoizedFn _ _ _ _ _) as [[c' out] runs]; cbn [fst cells];
    rewrite lookup_insert_ne by congruence; [reflexivity|].
  rewrite lookup_insert_ne by congruence. reflexivity.
Qed.

(** C4 (amended, legacy decorator form): in every reachable state, the
    registry of [o] has an entry for exactly the methods whose cell exists,
    i.e. the methods read at least once (called or not); [clearAllMemoized(o)]
    resets each of these cells to its initial state and leaves every other
    cell (and every memoized getter value) as it was, so each legacy method
    of [o] runs its body on its next call. *)
Theorem clearAllMemoized_resets_accessed w o :
  reachable call_equals decl method_body getter_body w ->
  (forall n k, reg_lookup w o n = Some k <-> k = KInst o n /\ is_Some (cells w !! KInst o n)) /\
  (forall n, is_Some (cells w !! KInst o n) ->
     cells (clearAllMemoized w o) !! KInst o n = Some initCell) /\
  (forall k, (forall n, k <> KInst o n) -> cells (clearAllMemoized w o) !! k = cells w !! k) /\
  (forall n args, decl n = Some (MMethod Legacy) ->
     evals (fst (call call_equals decl method_body (clearAllMemoized w o) o n args)) = S (evals w)) /\
  gvals (clearAllMemoized w o) = gvals w.
Proof.
  intros Hr. pose proof (registry_ok_reachable call_equals decl method_body getter_body w Hr) as Hok.
  destruct (clearAll_evals_gvals w o) as [Hev [Hgv _]].
  split; [apply Hok|]. split; [intros n; apply clearAll_lookup_registered, Hok|].
  split; [intros k; apply clearAll_lookup_other, Hok|]. split; [|exact Hgv].
  intros n args Hd. unfold call. rewrite Hd. cbn [access_method].
  destruct (cells (clearAllMemoized w o) !! KInst o n) as [c|] eqn:E.
  - assert (Hc : c = initCell).
    { assert (Hs : is_Some (cells w !! KInst o n)) by (apply (clearAll_is_Some w o); rewrite E; eauto).
      rewrite (clearAll_lookup_registered w o n Hok Hs) in E. congruence. }
    unfold cell_at; rewrite E, Hc.
    pose proof (memoizedFn_not_run_yet call_equals (method_body n (evals (clearAllMemoized w o)))
                  initCell (this_of o) args eq_refl) as [Hrun _].
    destruct (memoizedFn _ _ _ _ _) as [[c' out] runs]. cbn [fst evals snd] in *.
    rewrite Hev, Hrun. lia.
  - unfold cell_at; cbn [cells evals]. rewrite lookup_insert_eq.
    pose proof (memoizedFn_not_run_yet call_equals (method_body n (evals (clearAllMemoized w o)))
                  initCell (this_of o) args eq_refl) as [Hrun _].
    destruct (memoizedFn _ _ _ _ _) as [[c' out] runs]. cbn [fst evals snd] in *.
    rewrite Hev, Hrun. lia.
Qed.


End InstanceClaims.

(** ** Concrete runs of the demo class *)

Lemma clearAllMemoized_resets_accessed_witness :
  reachable no_custom_equals demo_decl demo_body demo_getter
    (run no_custom_equals demo_decl demo_body demo_getter emptyWorld
       [OpCall 0 "method1" []; OpCall 0 "method1" []]) /\
  evals (fst (call no_custom_equals demo_decl demo_body
    (clearAllMemoized (run no_custom_equals demo_decl demo_body demo_getter emptyWorld
       [OpCall 0 "method1" []; OpCall 0 "method1" []]) 0) 0 "method1" []))
  = S (evals (run no_custom_equals demo_decl demo_body demo_getter emptyWorld
       [OpCall 0 "method1" []; OpCall 0 "method1" []])).
Proof.
  assert (Hr : reachable no_custom_equals demo_decl demo_body demo_getter
    (run no_custom_equals demo_decl demo_body demo_getter emptyWorld
       [OpCall 0 "method1" []; OpCall 0 "method1" []])) by (eexists; reflexivity).
  split; [exact Hr|].
  apply (proj1 (proj2 (proj2 (proj2 (clearAllMemoized_resets_accessed no_custom_equals demo_decl
    demo_body demo_getter _ 0 Hr))))).
  reflexivity.
Defined.

(** C4 fails for a method that is only read: [const f = o.method1] runs the
    descriptor's getter, which registers [method1] in the registry although
    the method never ran. *)
Lemma read_without_call_registers :
  let w := run no_custom_equals demo_decl demo_body demo_getter emptyWorld [OpRead 0 "method1"] in
  reg_lookup w 0 "method1" = Some (KInst 0 "method1") /\ evals w = 0%nat.
Proof. vm_compute. split; reflexivity. Qed.

(** C5: the Stage-3 form makes one cell per class (line 288).  Instance 0
    calls [shared()] and gets 0; instance 1 then calls [shared()] and gets
    instance 0's cached 0 without running the body, which would return 1.
    The legacy form, with a cell per instance, returns 1. *)
Theorem stage3_cell_shared_across_instances :
  let cl := call no_custom_equals demo_decl demo_body in
  let '(w1, r1) := cl emptyWorld 0%nat "shared" [] in
  let '(w2, r2) := cl w1 1%nat "shared" [] in
  let '(v1, p1) := cl emptyWorld 0%nat "method1" [] in
  let '(v2, p2) := cl v1 1%nat "method1" [] in
  r1 = Ret (VNum (NFin 0)) /\ r2 = Ret (VNum (NFin 0)) /\ evals w2 = 1%nat /\
  demo_body "shared" 1 (this_of 1) [] = Ret (VNum (NFin 1)) /\
  p1 = Ret (VNum (NFin 0)) /\ p2 = Ret (VNum (NFin 1)) /\ evals v2 = 2%nat.
Proof. vm_compute. repeat split. Qed.



(** ** Further properties of deepEqual *)

Lemma deepEqual_prim eqs a b d :
  obj_ref a = None -> 0 < d -> deepEqual eqs a b d = Ret (VBool (strict_eq a b)).
Proof.
  intros Ha Hd. assert (E : Z.leb d 0 = false) by (apply Z.leb_gt; lia).
  destruct a; try discriminate; cbn [deepEqual]; rewrite E;
    destruct (strict_eq _ b) eqn:Es; try reflexivity; destruct b; reflexivity.
Qed.

Lemma deepEqual_NaN_false eqs b d : deepEqual eqs (VNum NNaN) b d = Ret (VBool false).
Proof.
  cbn [deepEqual]. destruct (Z.leb d 0); [reflexivity|]. destruct b; reflexivity.
Qed.


Lemma primitive_item_no_ref x : is_primitive_item x = true -> obj_ref x = None.
Proof. destruct x; try reflexivity; discriminate. Qed.

Section DepthMonotone.

Variable eqs : nat -> Value -> Value -> Outcome.
Hypothesis Hwb : forall m x y, exists bb, eqs m x y = Ret (VBool bb).

Lemma deepEqual_mono (a : Value) : forall b d d',
  d <= d' -> deepEqual eqs a b d = Ret (VBool true) -> deepEqual eqs a b d' = Ret (VBool true).
Proof.
  induction a using value_ind; intros w d d' Hle Hres.
  all: destruct (Z.leb_spec d 0) as [Hd|Hd];
    [rewrite (deepEqual_depth_guard eqs _ w d Hd) in Hres; discriminate|].
  all: assert (E : Z.leb d 0 = false) by (apply Z.leb_gt; lia);
       assert (E' : Z.leb d' 0 = false) by (apply Z.leb_gt; lia).
  all: revert Hres; cbn [deepEqual]; rewrite E, E'; split_ifs; try tauto.
  all: destruct w; try tauto.
  all: destruct (negb _); [tauto|].
  - (* arrays: the [every] of line 96 *)
    match goal with H : Forall _ _ |- _ => rename H into Hxs end.
    generalize xs0; induction Hxs as [|x l Hx Hl IH]; intros ys; cbn; [tauto|].
    destruct (deepEqual_returns_bool eqs Hwb x (hd VUndef ys) (d - 1)) as [[|] Ex]; rewrite Ex;
      cbn [truthy]; [|discriminate].
    rewrite (Hx (hd VUndef ys) (d - 1) (d' - 1) ltac:(lia) Ex). apply IH.
  - (* Maps: lines 102-107 *)
    match goal with H : Forall _ _ |- _ => rename H into Hes end.
    induction Hes as [|[k x] l Hx Hl IH]; cbn in *; [tauto|].
    destruct (negb (map_has entries k)); [tauto|].
    destruct (deepEqual_returns_bool eqs Hwb x (map_get entries k) (d - 1)) as [[|] Ex]; rewrite Ex;
      cbn [truthy negb]; [|discriminate].
    rewrite (Hx (map_get entries k) (d - 1) (d' - 1) ltac:(lia) Ex). apply IH.
  - (* Sets: lines 113-119; the inner [some] may stop earlier at the larger depth *)
    match goal with H : Forall _ _ |- _ => rename H into Hxs end.
    induction Hxs as [|x l Hx Hl IH]; cbn; [tauto|].
    assert (Hsm : forall cs v,
      (fix sm (cs : list Value) : Outcome :=
         match cs with
         | [] => Ret (VBool false)
         | c :: cs' =>
             match deepEqual eqs x c (d - 1) with
             | Ret r => if truthy r then Ret (VBool true) else sm cs'
             | Throw e => Throw e
             end
         end) cs = Ret v -> truthy v = true ->
      (fix sm (cs : list Value) : Outcome :=
         match cs with
         | [] => Ret (VBool false)
         | c :: cs' =>
             match deepEqual eqs x c (d' - 1) with
             | Ret r => if truthy r then Ret (VBool true) else sm cs'
             | Throw e => Throw e
             end
         end) cs = Ret (VBool true)).
    { induction cs as [|c cs IHcs]; intros v; cbn.
      - intros Hv; inversion Hv; subst; discriminate.
      - destruct (deepEqual_returns_bool eqs Hwb x c (d - 1)) as [[|] Ex]; rewrite Ex; cbn [truthy].
        + rewrite (Hx c (d - 1) (d' - 1) ltac:(lia) Ex). reflexivity.
        + intros Hc Tv. destruct (deepEqual_returns_bool eqs Hwb x c (d' - 1)) as [[|] Ex']; rewrite Ex';
            cbn [truthy]; [reflexivity | exact (IHcs v Hc Tv)]. }
    intros Hres.
    destruct ((fix sm (cs : list Value) : Outcome :=
         match cs with
         | [] => Ret (VBool false)
         | c :: cs' =>
             match deepEqual eqs x c (d - 1) with
             | Ret r => if truthy r then Ret (VBool true) else sm cs'
             | Throw e => Throw e
             end
         end) xs0) as [v|e] eqn:Ev; [|discriminate].
    destruct (truthy v) eqn:Tv; cbn [negb] in Hres; [|discriminate].
    rewrite (Hsm xs0 v Ev Tv). cbn [truthy negb]. apply IH, Hres.
  - (* plain objects: lines 131-137 *)
    match goal with H : Forall _ _ |- _ => rename H into Hfs end.
    induction Hfs as [|[k x] l Hx Hl IH]; cbn in *; [tauto|].
    destruct (deepEqual_returns_bool eqs Hwb x (plain_get fields k) (d - 1)) as [[|] Ex]; rewrite Ex;
      cbn [truthy]; [|discriminate].
    rewrite (Hx (plain_get fields k) (d - 1) (d' - 1) ltac:(lia) Ex). apply IH.
Qed.

End DepthMonotone.

Lemma find_field_perm fs fs' k :
  NoDup (map fst fs) -> fs ≡ₚ fs' -> find_field fs' k = find_field fs k.
Proof.
  intros Hnd HP. revert Hnd.
  induction HP as [|[k1 v1] l l' HP IH|[k1 v1] [k2 v2] l|l l' l'' HP1 IH1 HP2 IH2];
    intros Hnd; cbn [find_field map fst] in *.
  - reflexivity.
  - inversion Hnd; subst. rewrite IH by assumption. reflexivity.
  - inversion Hnd as [|? ? Hn1 Hnd1]; subst. cbn in Hn1.
    destruct (String.eqb_spec k k1), (String.eqb_spec k k2); subst; try reflexivity.
    exfalso; apply Hn1; left; reflexivity.
  - rewrite IH2, IH1 by (try exact Hnd; apply NoDup_ListNoDup;
      exact (Permutation_NoDup (Permutation_map fst HP1) (proj1 (NoDup_ListNoDup _) Hnd))).
    reflexivity.
Qed.

Lemma plain_get_perm fs fs' k :
  NoDup (map fst fs) -> fs ≡ₚ fs' -> plain_get fs' k = plain_get fs k.
Proof. intros Hnd HP. unfold plain_get. rewrite (find_field_perm fs fs' k Hnd HP). reflexivity. Qed.

Lemma get_field_absent fs k : ~ In k (map fst fs) -> get_field fs k = VUndef.
Proof.
  induction fs as [|[k' v] fs IH]; intros Hn; [reflexivity|]. cbn [get_field].
  destruct (String.eqb_spec k k') as [->|]; [exfalso; apply Hn; left; reflexivity|].
  apply IH. intros Hi; apply Hn; right; exact Hi.
Qed.

Lemma proto_field_defined k :
  In k (map fst object_prototype) -> get_field object_prototype k <> VUndef.
Proof.
  intros H; cbn in H. repeat (destruct H as [<-|H]; [cbn; discriminate|]). destruct H.
Qed.

Lemma find_field_absent fs k : ~ In k (map fst fs) -> find_field fs k = None.
Proof.
  induction fs as [|[k' v] fs IH]; intros Hn; [reflexivity|]. cbn [find_field].
  destruct (String.eqb_spec k k') as [->|]; [exfalso; apply Hn; left; reflexivity|].
  apply IH. intros Hi; apply Hn; right; exact Hi.
Qed.

Lemma deepEqual_plain_forall eqs ra fa rb fb d :
  (forall m x y, exists bb, eqs m x y = Ret (VBool bb)) ->
  0 < d -> ra <> rb -> length fa = length fb ->
  (deepEqual eqs (VPlain ra fa) (VPlain rb fb) d = Ret (VBool true) <->
   Forall (fun f => deepEqual eqs (snd f) (plain_get fb (fst f)) (d - 1) = Ret (VBool true)) fa).
Proof.
  intros Hwb Hd Hr Hl. assert (E : Z.leb d 0 = false) by (apply Z.leb_gt; lia).
  cbn [deepEqual]. rewrite E.
  assert (Es : strict_eq (VPlain ra fa) (VPlain rb fb) = false) by (cbn; apply Nat.eqb_neq; exact Hr).
  rewrite Es, Hl, Nat.eqb_refl. cbn [is_nullish orb typeof String.eqb negb andb].
  clear Hl Es. induction fa as [|[k v] fa IH]; cbn.
  - split; [intros _; constructor | reflexivity].
  - destruct (deepEqual_returns_bool eqs Hwb v (plain_get fb k) (d - 1)) as [[|] Ev]; rewrite Ev; cbn [truthy].
    + rewrite IH. split; [intros H; exact (@List.Forall_cons _ _ (k, v) fa Ev H)
                         | intros H; exact (List.Forall_inv_tail H)].
    + split; [discriminate | intros H; inversion H as [|? ? Hx]; cbn in Hx; congruence].
Qed.

Lemma deepEqual_plain_same_ref eqs r fa fb d :
  0 < d -> deepEqual eqs (VPlain r fa) (VPlain r fb) d = Ret (VBool true).
Proof.
  intros Hd. assert (E : Z.leb d 0 = false) by (apply Z.leb_gt; lia).
  cbn [deepEqual]. rewrite E. cbn. rewrite Nat.eqb_refl. reflexivity.
Qed.

Lemma deepEqual_plain_length eqs ra fa rb fb d :
  ra <> rb -> length fa <> length fb -> deepEqual eqs (VPlain ra fa) (VPlain rb fb) d = Ret (VBool false).
Proof.
  intros Hr Hl. cbn [deepEqual]. destruct (Z.leb d 0); [reflexivity|].
  assert (Es : strict_eq (VPlain ra fa) (VPlain rb fb) = false) by (cbn; apply Nat.eqb_neq; exact Hr).
  rewrite Es. cbn [is_nullish orb typeof String.eqb negb andb].
  destruct (Nat.eqb_spec (length fa) (length fb)); [contradiction | reflexivity].
Qed.

(** X1: at every positive depth, a primitive value (undefined, null, a
    boolean, number, string or symbol) is [deepEqual] to exactly the values
    it is [===] to: lines 54-66 answer before any structural comparison. *)
Theorem deepEqual_primitive_strict eqs a b d :
  obj_ref a = None -> 0 < d -> deepEqual eqs a b d = Ret (VBool (strict_eq a b)).
Proof. apply deepEqual_prim. Qed.

Lemma deepEqual_primitive_strict_witness :
  obj_ref (VNum (NFin 1)) = None /\ 0 < 100 /\
  deepEqual no_custom_equals (VNum (NFin 1)) (VStr "1") 100 = Ret (VBool false).
Proof.
  split; [reflexivity|]. split; [lia|].
  exact (deepEqual_primitive_strict no_custom_equals (VNum (NFin 1)) (VStr "1") 100 eq_refl
           ltac:(lia)).
Defined.

(** X2: when the custom [equals] methods return booleans, raising the depth
    limit never turns an equal verdict into an unequal one: if
    [deepEqual(a, b, d)] is [true], so is [deepEqual(a, b, d')] for every
    [d' >= d]. *)
Theorem deepEqual_depth_monotone eqs a b d d' :
  (forall m x y, exists bb, eqs m x y = Ret (VBool bb)) ->
  d <= d' -> deepEqual eqs a b d = Ret (VBool true) -> deepEqual eqs a b d' = Ret (VBool true).
Proof. intros Hwb. apply (deepEqual_mono eqs Hwb a). Qed.

Lemma deepEqual_depth_monotone_witness :
  (forall m x y, exists bb, no_custom_equals m x y = Ret (VBool bb)) /\ 3 <= 100 /\
  deepEqual no_custom_equals (VArray 1 [VArray 2 []]) (VArray 3 [VArray 4 []]) 3 = Ret (VBool true) /\
  deepEqual no_custom_equals (VArray 1 [VArray 2 []]) (VArray 3 [VArray 4 []]) 100 = Ret (VBool true).
Proof.
  assert (H : forall m x y, exists bb, no_custom_equals m x y = Ret (VBool bb))
    by (intros; exists false; reflexivity).
  assert (H3 : deepEqual no_custom_equals (VArray 1 [VArray 2 []]) (VArray 3 [VArray 4 []]) 3
               = Ret (VBool true)) by reflexivity.
  split; [exact H|]. split; [lia|]. split; [exact H3|].
  exact (deepEqual_depth_monotone no_custom_equals _ _ 3 100 H ltac:(lia) H3).
Defined.

(** X3: two separately built arrays nested [n] levels deep (each level
    holding the next, the innermost empty) are [deepEqual] exactly when
    [n < maxDepth]; at the default depth 100, nesting of 100 levels or more
    compares unequal although the two structures are identical. *)
Theorem deepEqual_nested_depth_bound eqs n d :
  deepEqual eqs (nested_array 0 n) (nested_array 1 n) d = Ret (VBool (Z.of_nat n <? d)).
Proof.
  revert d; induction n as [|n IH]; intros d.
  - cbn [nested_array deepEqual]. destruct (Z.leb_spec d 0).
    + symmetry; f_equal; f_equal; apply Z.ltb_ge; lia.
    + symmetry; f_equal; f_equal; apply Z.ltb_lt; lia.
  - cbn [nested_array deepEqual]. destruct (Z.leb_spec d 0).
    + symmetry; f_equal; f_equal; apply Z.ltb_ge; lia.
    + assert (Hr : strict_eq (VArray (2 * S n + 0) [nested_array 0 n])
                             (VArray (2 * S n + 1) [nested_array 1 n]) = false).
      { cbn. apply Nat.eqb_neq. lia. }
      rewrite Hr. cbn [is_nullish orb typeof negb String.eqb andb length Nat.eqb forallb].
      assert (Hp : is_primitive_item (nested_array 0 n) = false) by (destruct n; reflexivity).
      rewrite Hp. cbn [andb hd tl]. rewrite IH.
      destruct (Z.ltb_spec (Z.of_nat n) (d - 1)); cbn [truthy];
        symmetry; f_equal; f_equal; [apply Z.ltb_lt | apply Z.ltb_ge]; lia.
Qed.

(** X4: when the custom [equals] methods return booleans, the verdict on two
    plain objects does not depend on the order of the keys of either object
    (the keys of the second being distinct, as an object's keys are). *)
Theorem deepEqual_plain_key_order eqs ra fa fa' rb fb fb' d :
  (forall m x y, exists bb, eqs m x y = Ret (VBool bb)) ->
  NoDup (map fst fb) -> fa ≡ₚ fa' -> fb ≡ₚ fb' ->
  deepEqual eqs (VPlain ra fa') (VPlain rb fb') d = deepEqual eqs (VPlain ra fa) (VPlain rb fb) d.
Proof.
  intros Hwb Hnd Ha Hb.
  destruct (Z.leb_spec d 0) as [Hd|Hd].
  { rewrite !deepEqual_depth_guard by exact Hd. reflexivity. }
  destruct (Nat.eq_dec ra rb) as [<-|Hr].
  { rewrite !deepEqual_plain_same_ref by exact Hd. reflexivity. }
  pose proof (Permutation_length Ha) as La. pose proof (Permutation_length Hb) as Lb.
  destruct (Nat.eq_dec (length fa) (length fb)) as [Hl|Hl].
  2:{ rewrite !deepEqual_plain_length by (assumption || congruence). reflexivity. }
  destruct (deepEqual_returns_bool eqs Hwb (VPlain ra fa) (VPlain rb fb) d) as [b1 E1].
  destruct (deepEqual_returns_bool eqs Hwb (VPlain ra fa') (VPlain rb fb') d) as [b2 E2].
  rewrite E1, E2. f_equal. f_equal.
  pose proof (deepEqual_plain_forall eqs ra fa rb fb d Hwb Hd Hr Hl) as I1.
  pose proof (deepEqual_plain_forall eqs ra fa' rb fb' d Hwb Hd Hr ltac:(congruence)) as I2.
  rewrite E1 in I1. rewrite E2 in I2.
  assert (Hiff : Forall (fun f => deepEqual eqs (snd f) (plain_get fb' (fst f)) (d - 1) = Ret (VBool true)) fa'
             <-> Forall (fun f => deepEqual eqs (snd f) (plain_get fb (fst f)) (d - 1) = Ret (VBool true)) fa).
  { rewrite <- Ha. apply Forall_proper; [|reflexivity].
    intros [k v]; cbn [fst snd]. rewrite (plain_get_perm fb fb' k Hnd Hb). reflexivity. }
  destruct b1, b2; try reflexivity.
  - exfalso. assert (H : Ret (VBool false) = Ret (VBool true)) by (apply I2, Hiff, I1; reflexivity).
    discriminate.
  - exfalso. assert (H : Ret (VBool false) = Ret (VBool true)) by (apply I1, Hiff, I2; reflexivity).
    discriminate.
Qed.

Lemma deepEqual_plain_key_order_witness :
  (forall m x y, exists bb, no_custom_equals m x y = Ret (VBool bb)) /\
  NoDup (map fst [("b"%string, VNum (NFin 2)); ("a"%string, VNum (NFin 1))]) /\
  deepEqual no_custom_equals
    (VPlain 1 [("b"%string, VNum (NFin 2)); ("a"%string, VNum (NFin 1))])
    (VPlain 2 [("a"%string, VNum (NFin 1)); ("b"%string, VNum (NFin 2))]) 100
  = deepEqual no_custom_equals
    (VPlain 1 [("a"%string, VNum (NFin 1)); ("b"%string, VNum (NFin 2))])
    (VPlain 2 [("b"%string, VNum (NFin 2)); ("a"%string, VNum (NFin 1))]) 100.
Proof.
  assert (H : forall m x y, exists bb, no_custom_equals m x y = Ret (VBool bb))
    by (intros; exists false; reflexivity).
  assert (Hnd : NoDup (map fst [("b"%string, VNum (NFin 2)); ("a"%string, VNum (NFin 1))])).
  { apply NoDup_ListNoDup. cbn. constructor; [intros [Hx|[]]; discriminate | constructor; [intros []|constructor]]. }
  split; [exact H|]. split; [exact Hnd|].
  apply (deepEqual_plain_key_order no_custom_equals 1 _ _ 2 _ _ 100 H Hnd); apply perm_swap.
Defined.

(** X5: a key of the first plain object that the second lacks is read
    through the second's prototype (line 134): as [undefined] unless
    [Object.prototype] has a property of that name.  Two plain objects with
    the same number of keys, all of whose values in the first are
    [undefined] on keys that neither the second nor [Object.prototype]
    has, are [deepEqual] whatever the second holds ([{x: undefined}] and
    [{y: 1}]); but a key such as [constructor] reads the inherited
    property, so [{constructor: undefined}] and [{y: 1}] are not. *)
Theorem deepEqual_plain_missing_key_undefined eqs ra fa rb fb d :
  1 < d -> length fa = length fb ->
  (Forall (fun f => snd f = VUndef /\ (~ In (fst f) (map fst fb)) /\
                    (~ In (fst f) (map fst object_prototype))) fa ->
   deepEqual eqs (VPlain ra fa) (VPlain rb fb) d = Ret (VBool true)) /\
  (forall k k' v, ra <> rb -> k <> k' -> In k (map fst object_prototype) ->
   deepEqual eqs (VPlain ra [(k, VUndef)]) (VPlain rb [(k', v)]) d = Ret (VBool false)).
Proof.
  intros Hd Hl. split.
  - intros Hf.
    destruct (Nat.eq_dec ra rb) as [<-|Hr]; [apply deepEqual_plain_same_ref; lia|].
    assert (E : Z.leb d 0 = false) by (apply Z.leb_gt; lia).
    cbn [deepEqual]. rewrite E.
    assert (Es : strict_eq (VPlain ra fa) (VPlain rb fb) = false) by (cbn; apply Nat.eqb_neq; exact Hr).
    rewrite Es, Hl, Nat.eqb_refl. cbn [is_nullish orb typeof String.eqb negb andb].
    clear Hl Es. induction Hf as [|[k v] fa [Hv [Hk Hp]] _ IH]; cbn [fst snd] in *; [reflexivity|].
    cbn [andb]. unfold plain_get. rewrite find_field_absent by exact Hk.
    rewrite (get_field_absent object_prototype k Hp). subst v.
    assert (E1 : Z.leb (d - 1) 0 = false) by (apply Z.leb_gt; lia).
    cbn [deepEqual]. rewrite E1. cbn [strict_eq truthy]. exact IH.
  - intros k k' v Hr Hk Hp.
    assert (E : Z.leb d 0 = false) by (apply Z.leb_gt; lia).
    assert (E1 : Z.leb (d - 1) 0 = false) by (apply Z.leb_gt; lia).
    cbn [deepEqual]. rewrite E.
    assert (Es : strict_eq (VPlain ra [(k, VUndef)]) (VPlain rb [(k', v)]) = false)
      by (cbn; apply Nat.eqb_neq; exact Hr).
    rewrite Es. cbn [is_nullish orb typeof String.eqb negb andb length Nat.eqb].
    unfold plain_get. cbn [find_field].
    destruct (String.eqb_spec k k') as [|_]; [contradiction|].
    pose proof (proto_field_defined k Hp) as Hv.
    cbn [deepEqual]. rewrite E1.
    destruct (get_field object_prototype k); [contradiction|..]; reflexivity.
Qed.

Lemma deepEqual_plain_missing_key_undefined_witness :
  1 < 100 /\
  deepEqual no_custom_equals (VPlain 1 [("x"%string, VUndef)]) (VPlain 2 [("y"%string, VNum (NFin 1))]) 100
  = Ret (VBool true) /\
  deepEqual no_custom_equals (VPlain 1 [("constructor"%string, VUndef)]) (VPlain 2 [("y"%string, VNum (NFin 1))]) 100
  = Ret (VBool false).
Proof.
  split; [lia|]. split.
  - apply (proj1 (deepEqual_plain_missing_key_undefined no_custom_equals 1 [("x"%string, VUndef)] 2
             [("y"%string, VNum (NFin 1))] 100 ltac:(lia) eq_refl)).
    constructor; [split; [reflexivity | split; [intros [Hx|[]]; discriminate | vm_compute; intros H; repeat (destruct H as [H|H]; [discriminate|]); exact H]] | constructor].
  - apply (proj2 (deepEqual_plain_missing_key_undefined no_custom_equals 1 [("x"%string, VUndef)] 2
             [("y"%string, VNum (NFin 1))] 100 ltac:(lia) eq_refl)); [lia | discriminate | vm_compute; tauto].
Defined.

(** X6: Map keys are looked up by SameValueZero (line 104), not compared
    deeply: if a key of the first Map is not a key of the second (an object
    key being matched only by the same object), two distinct Maps are never
    reported equal, whatever their values. *)
Theorem deepEqual_map_key_identity eqs ra es rb bes d k v :
  ra <> rb -> In (k, v) es -> map_has bes k = false ->
  deepEqual eqs (VMap ra es) (VMap rb bes) d <> Ret (VBool true).
Proof.
  intros Hr Hin Hk. cbn [deepEqual]. destruct (Z.leb d 0); [discriminate|].
  assert (Es : strict_eq (VMap ra es) (VMap rb bes) = false) by (cbn; apply Nat.eqb_neq; exact Hr).
  rewrite Es. cbn [is_nullish orb typeof String.eqb negb andb].
  destruct (Nat.eqb (length es) (length bes)); cbn [negb]; [|discriminate].
  clear Es. induction es as [|[k' v'] es IH]; [destruct Hin|]. cbn.
  destruct Hin as [Heq|Hin].
  - inversion Heq; subst. rewrite Hk. cbn. discriminate.
  - destruct (map_has bes k'); cbn [negb]; [|discriminate].
    destruct (deepEqual eqs v' (map_get bes k') (d - 1)) as [r|e]; [|discriminate].
    destruct (truthy r); cbn [negb]; [exact (IH Hin) | discriminate].
Qed.

Lemma deepEqual_map_key_identity_witness :
  (1 <> 3)%nat /\ In (VArray 2 [VNum (NFin 1)], VNum (NFin 1)) [(VArray 2 [VNum (NFin 1)], VNum (NFin 1))] /\
  map_has [(VArray 4 [VNum (NFin 1)], VNum (NFin 1))] (VArray 2 [VNum (NFin 1)]) = false /\
  deepEqual no_custom_equals (VMap 1 [(VArray 2 [VNum (NFin 1)], VNum (NFin 1))])
    (VMap 3 [(VArray 4 [VNum (NFin 1)], VNum (NFin 1))]) 100 <> Ret (VBool true).
Proof.
  split; [lia|]. split; [left; reflexivity|]. split; [reflexivity|].
  apply (deepEqual_map_key_identity no_custom_equals 1 _ 3 _ 100 (VArray 2 [VNum (NFin 1)]) (VNum (NFin 1)));
    [lia | left; reflexivity | reflexivity].
Defined.

(** X7: the fast path for arrays of primitives (lines 84-92) is only an
    optimisation when [maxDepth >= 2]: with custom [equals] methods
    returning booleans, two distinct arrays without holes ([VArray] is
    dense; [every] would skip a hole) are [deepEqual] exactly when
    they have the same length and their elements are [deepEqual] position
    by position at depth [maxDepth - 1]. *)
Theorem deepEqual_array_elementwise eqs ra xs rb ys d :
  (forall m x y, exists bb, eqs m x y = Ret (VBool bb)) -> 1 < d -> ra <> rb ->
  (deepEqual eqs (VArray ra xs) (VArray rb ys) d = Ret (VBool true) <->
   Forall2 (fun x y => deepEqual eqs x y (d - 1) = Ret (VBool true)) xs ys).
Proof.
  intros Hwb Hd Hr. assert (E : Z.leb d 0 = false) by (apply Z.leb_gt; lia).
  cbn [deepEqual]. rewrite E.
  assert (Es : strict_eq (VArray ra xs) (VArray rb ys) = false) by (cbn; apply Nat.eqb_neq; exact Hr).
  rewrite Es. cbn [is_nullish orb typeof String.eqb negb andb]. clear Es.
  destruct (Nat.eqb_spec (length xs) (length ys)) as [Hl|Hl]; cbn [negb].
  2:{ split; [discriminate | intros H; apply Forall2_length in H; contradiction]. }
  destruct (forallb is_primitive_item xs) eqn:Hp.
  - revert ys Hl Hp; induction xs as [|x xs IH]; intros [|y ys] Hl Hp; cbn [length] in Hl; try lia.
    + split; [intros _; constructor | reflexivity].
    + cbn [forallb] in Hp; apply andb_prop in Hp as [Hx Hp]. cbn [combine forallb fst snd].
      rewrite Forall2_cons. cbv beta.
      rewrite (deepEqual_prim eqs x y (d - 1) (primitive_item_no_ref x Hx) ltac:(lia)).
      rewrite <- (IH ys ltac:(lia) Hp).
      destruct (strict_eq x y); cbn [andb]; [tauto|].
      split; [discriminate | intros [H _]; discriminate].
  - clear Hp. revert ys Hl; induction xs as [|x xs IH]; intros [|y ys] Hl; cbn [length] in Hl; try lia.
    + split; [intros _; constructor | reflexivity].
    + cbn. rewrite Forall2_cons. cbv beta. rewrite <- (IH ys ltac:(lia)).
      destruct (deepEqual_returns_bool eqs Hwb x y (d - 1)) as [[|] Ex]; rewrite Ex; cbn [truthy]; [tauto|].
      split; [discriminate | intros [H _]; discriminate].
Qed.

Lemma deepEqual_array_elementwise_witness :
  (forall m x y, exists bb, no_custom_equals m x y = Ret (VBool bb)) /\ 1 < 100 /\ (1 <> 2)%nat /\
  (deepEqual no_custom_equals (VArray 1 [VNum (NFin 1); VPlain 3 []])
     (VArray 2 [VNum (NFin 1); VPlain 4 []]) 100 = Ret (VBool true) <->
   Forall2 (fun x y => deepEqual no_custom_equals x y (100 - 1) = Ret (VBool true))
     [VNum (NFin 1); VPlain 3 []] [VNum (NFin 1); VPlain 4 []]).
Proof.
  assert (H : forall m x y, exists bb, no_custom_equals m x y = Ret (VBool bb))
    by (intros; exists false; reflexivity).
  split; [exact H|]. split; [lia|]. split; [lia|].
  apply deepEqual_array_elementwise; [exact H | lia | lia].
Defined.

(** ** Further properties of the cache cell *)


(** X9: an argument [NaN] defeats the cache: [deepEqual(NaN, p)] is [false]
    for every stored [p], so, when the custom [equals] methods return
    booleans, every call with [NaN] among its arguments runs the method once
    and returns what it returns, even right after the same call. *)
Theorem memoizedFn_NaN_arg_recomputes eqs om c this args :
  (forall m x y, exists bb, eqs m x y = Ret (VBool bb)) -> In (VNum NNaN) args ->
  snd (memoizedFn eqs om c this args) = 1%nat /\ snd (fst (memoizedFn eqs om c this args)) = om this args.
Proof.
  intros Hwb Hin.
  assert (Hs : isSame eqs c args = Ret (VBool false)).
  { unfold isSame. destruct (calledOnce c); [|reflexivity].
    destruct (Nat.eqb_spec (length (previousArgs c)) (length args)) as [Hl|]; [|reflexivity].
    destruct (args_every_decides eqs Hwb args (previousArgs c) (eq_sym Hl)) as [[_ F]|[E _]];
      [|exact E].
    exfalso. clear Hl. induction F as [|a p args prev Hap F IH]; [destruct Hin|].
    destruct Hin as [->|Hin]; [rewrite deepEqual_NaN_false in Hap; discriminate | exact (IH Hin)]. }
  unfold memoizedFn. rewrite Hs. cbn [truthy]. destruct (om this args); split; reflexivity.
Qed.

Lemma memoizedFn_NaN_arg_recomputes_witness :
  (forall m x y, exists bb, no_custom_equals m x y = Ret (VBool bb)) /\ In (VNum NNaN) [VNum NNaN] /\
  snd (memoizedFn no_custom_equals fail_on_two (mkCell [VNum NNaN] true (VNum (NFin 7))) (this_of 0)
         [VNum NNaN]) = 1%nat.
Proof.
  assert (H : forall m x y, exists bb, no_custom_equals m x y = Ret (VBool bb))
    by (intros; exists false; reflexivity).
  split; [exact H|]. split; [left; reflexivity|].
  exact (proj1 (memoizedFn_NaN_arg_recomputes no_custom_equals fail_on_two
    (mkCell [VNum NNaN] true (VNum (NFin 7))) (this_of 0) [VNum NNaN] H (or_introl eq_refl))).
Defined.

(** ** Further properties of the decorator and clearAllMemoized *)

Lemma run_clear_fns_twice ks cs : run_clear_fns ks (run_clear_fns ks cs) = run_clear_fns ks cs.
Proof.
  apply map_eq; intros k. destruct (decide (k ∈ ks)) as [Hin|Hnin].
  - rewrite !(run_clear_fns_in ks _ k Hin). destruct (cs !! k); reflexivity.
  - rewrite !(run_clear_fns_notin ks _ k Hnin). reflexivity.
Qed.

(** X10: [clearAllMemoized] is idempotent: a second call right after the
    first changes nothing. *)
Theorem clearAllMemoized_idempotent w o :
  clearAllMemoized (clearAllMemoized w o) o = clearAllMemoized w o.
Proof.
  unfold clearAllMemoized at 2. destruct (registry w !! o) as [fns|] eqn:E.
  - unfold clearAllMemoized; cbn [registry cells gvals evals]. rewrite E.
    rewrite run_clear_fns_twice. reflexivity.
  - unfold clearAllMemoized. rewrite E. reflexivity.
Qed.

Section WorldExtras.

Variable call_equals : nat -> Value -> Value -> Outcome.
Variable decl : string -> option Member.
Variable method_body : string -> nat -> Value -> list Value -> Outcome.
Variable getter_body : string -> nat -> Value -> Outcome.

Lemma access_method_key w form o n : snd (access_method w form o n) = method_cell form o n.
Proof. destruct form; cbn; [destruct (cells w !! KInst o n)|]; reflexivity. Qed.


Lemma access_method_cells w form o n k :
  is_Some (cells (fst (access_method w form o n)) !! k) ->
  is_Some (cells w !! k) \/ (form = Legacy /\ k = KInst o n).
Proof.
  destruct form; cbn; [|left; assumption].
  destruct (cells w !! KInst o n); cbn; [left; assumption|].
  destruct (decide (k = KInst o n)) as [->|Hne]; [right; split; reflexivity|].
  rewrite lookup_insert_ne by congruence. left; assumption.
Qed.


Lemma legacy_cells_step w op :
  (forall o n, is_Some (cells w !! KInst o n) -> decl n = Some (MMethod Legacy)) ->
  forall o n, is_Some (cells (step call_equals decl method_body getter_body w op) !! KInst o n) ->
  decl n = Some (MMethod Legacy).
Proof.
  intros Hinv o n. destruct op as [o' n'|o' n' args|o' n'|o'|o' n']; cbn [step].
  - destruct (decl n') as [[form|]|] eqn:Ed; try apply Hinv.
    intros Hs. destruct (access_method_cells w form o' n' _ Hs) as [H|[-> Hk]]; [exact (Hinv _ _ H)|].
    inversion Hk; subst; exact Ed.
  - unfold call. destruct (decl n') as [[form|]|] eqn:Ed; try apply Hinv.
    pose proof (access_method_key w form o' n') as Hk.
    pose proof (access_method_cells w form o' n') as Hc.
    destruct (access_method w form o' n') as [w1 k]. cbn [snd fst] in Hk, Hc. subst k.
    destruct (memoizedFn _ _ _ _ _) as [[c' out] runs]. cbn [fst cells]. intros Hs.
    destruct (decide (KInst o n = method_cell form o' n')) as [He|Hne].
    + destruct form; cbn in He; [inversion He; subst; exact Ed | discriminate He].
    + rewrite lookup_insert_ne in Hs by congruence.
      destruct (Hc _ Hs) as [H|[-> Hk]]; [exact (Hinv _ _ H)|]. inversion Hk; subst; exact Ed.
  - unfold call_clearMemo. destruct (decl n') as [[form|]|] eqn:Ed; try apply Hinv.
    pose proof (access_method_key w form o' n') as Hk.
    pose proof (access_method_cells w form o' n') as Hc.
    destruct (access_method w form o' n') as [w1 k]. cbn [snd fst] in Hk, Hc. subst k.
    cbn [cells]. intros Hs.
    destruct (decide (KInst o n = method_cell form o' n')) as [He|Hne].
    + destruct form; cbn in He; [inversion He; subst; exact Ed | discriminate He].
    + rewrite lookup_insert_ne in Hs by congruence.
      destruct (Hc _ Hs) as [H|[-> Hk]]; [exact (Hinv _ _ H)|]. inversion Hk; subst; exact Ed.
  - intros Hs. apply (Hinv o). apply (clearAll_is_Some w o'), Hs.
  - destruct (decl n') as [[]|]; try apply Hinv. unfold get_prop.
    destruct (gvals w !! (o', n')); [apply Hinv|].
    destruct (getter_body n' (evals w) (this_of o')); apply Hinv.
Qed.



(** X11: [clearAllMemoized] never reaches a Stage-3-decorated method: in
    every reachable state it leaves that method's class-wide cell as it is,
    so the next call of the method on any instance has the same outcome as
    without the clearing. *)
Theorem clearAllMemoized_keeps_stage3 w o o' n args :
  reachable call_equals decl method_body getter_body w -> decl n = Some (MMethod Stage3) ->
  cells (clearAllMemoized w o) !! KClass n = cells w !! KClass n /\
  snd (call call_equals decl method_body (clearAllMemoized w o) o' n args)
  = snd (call call_equals decl method_body w o' n args).
Proof.
  intros Hr Hd. pose proof (registry_ok_reachable call_equals decl method_body getter_body w Hr) as Hok.
  assert (Hc : cells (clearAllMemoized w o) !! KClass n = cells w !! KClass n).
  { apply clearAll_lookup_other; [exact Hok | intros n' H; discriminate H]. }
  split; [exact Hc|].
  unfold call. rewrite Hd. cbn [access_method]. unfold cell_at.
  rewrite Hc, (proj1 (clearAll_evals_gvals w o)).
  destruct (memoizedFn _ _ _ _ _) as [[c' out] runs]. reflexivity.
Qed.

(** X12: in every reachable state, [o.__memoizedClearFns] names only
    legacy-decorated methods, each with [o]'s own cell: a Stage-3 method or
    a getter is never registered. *)
Theorem registry_names_legacy_methods w o n k :
  reachable call_equals decl method_body getter_body w -> reg_lookup w o n = Some k ->
  k = KInst o n /\ decl n = Some (MMethod Legacy).
Proof.
  intros Hr Hl. pose proof (registry_ok_reachable call_equals decl method_body getter_body w Hr) as Hok.
  apply Hok in Hl as [-> Hs]. split; [reflexivity|].
  clear Hok. destruct Hr as [ops ->]. revert Hs.
  assert (Hinv : forall o n, is_Some (cells emptyWorld !! KInst o n) -> decl n = Some (MMethod Legacy)).
  { intros o' n' [c Hc]. cbn in Hc. rewrite lookup_empty in Hc. discriminate. }
  revert Hinv. generalize emptyWorld as w0.
  induction ops as [|op ops IH]; intros w0 Hinv; cbn [run fold_left]; [apply Hinv|].
  apply IH. apply legacy_cells_step, Hinv.
Qed.

(** X13: [o.n.clearMemo()] resets exactly one cell and leaves every other
    cell as it was: [o]'s own cell for a legacy-decorated method, the
    class-wide cell for a Stage-3 one (so clearing through one instance
    clears it for all instances). *)
Theorem clearMemo_resets_one_cell w o n form :
  decl n = Some (MMethod form) ->
  cells (call_clearMemo decl w o n) !! method_cell form o n = Some initCell /\
  (forall k, k <> method_cell form o n -> cells (call_clearMemo decl w o n) !! k = cells w !! k).
Proof.
  intros Hd. unfold call_clearMemo. rewrite Hd.
  pose proof (access_method_key w form o n) as Hk.
  assert (Hc : forall k, k <> method_cell form o n ->
                 cells (fst (access_method w form o n)) !! k = cells w !! k).
  { intros k Hne. destruct form; cbn; [|reflexivity]. destruct (cells w !! KInst o n); [reflexivity|].
    cbn in Hne |- *. apply lookup_insert_ne. congruence. }
  destruct (access_method w form o n) as [w1 k]. cbn [snd fst] in Hk, Hc. subst k. cbn [cells].
  split; [rewrite lookup_insert_eq; reflexivity|].
  intros k Hne. rewrite lookup_insert_ne by congruence. apply Hc, Hne.
Qed.


End WorldExtras.

(** ** Concrete runs for the further properties *)


Lemma clearAllMemoized_keeps_stage3_witness :
  reachable no_custom_equals demo_decl demo_body demo_getter
    (run no_custom_equals demo_decl demo_body demo_getter emptyWorld [OpCall 0 "shared" []; OpRead 0 "method1"]) /\
  demo_decl "shared" = Some (MMethod Stage3) /\
  snd (call no_custom_equals demo_decl demo_body
    (clearAllMemoized (run no_custom_equals demo_decl demo_body demo_getter emptyWorld
       [OpCall 0 "shared" []; OpRead 0 "method1"]) 0) 1 "shared" [])
  = snd (call no_custom_equals demo_decl demo_body
    (run no_custom_equals demo_decl demo_body demo_getter emptyWorld
       [OpCall 0 "shared" []; OpRead 0 "method1"]) 1 "shared" []).
Proof.
  assert (Hr : reachable no_custom_equals demo_decl demo_body demo_getter
    (run no_custom_equals demo_decl demo_body demo_getter emptyWorld [OpCall 0 "shared" []; OpRead 0 "method1"]))
    by (eexists; reflexivity).
  split; [exact Hr|]. split; [reflexivity|].
  exact (proj2 (clearAllMemoized_keeps_stage3 no_custom_equals demo_decl demo_body demo_getter _ 0 1 "shared" []
                  Hr eq_refl)).
Defined.

Lemma registry_names_legacy_methods_witness :
  reachable no_custom_equals demo_decl demo_body demo_getter
    (run no_custom_equals demo_decl demo_body demo_getter emptyWorld [OpRead 0 "method1"; OpCall 0 "shared" []]) /\
  reg_lookup (run no_custom_equals demo_decl demo_body demo_getter emptyWorld
    [OpRead 0 "method1"; OpCall 0 "shared" []]) 0 "method1" = Some (KInst 0 "method1") /\
  demo_decl "method1" = Some (MMethod Legacy).
Proof.
  assert (Hr : reachable no_custom_equals demo_decl demo_body demo_getter
    (run no_custom_equals demo_decl demo_body demo_getter emptyWorld [OpRead 0 "method1"; OpCall 0 "shared" []]))
    by (eexists; reflexivity).
  assert (Hl : reg_lookup (run no_custom_equals demo_decl demo_body demo_getter emptyWorld
    [OpRead 0 "method1"; OpCall 0 "shared" []]) 0 "method1" = Some (KInst 0 "method1"))
    by (vm_compute; reflexivity).
  split; [exact Hr|]. split; [exact Hl|].
  exact (proj2 (registry_names_legacy_methods no_custom_equals demo_decl demo_body demo_getter _ 0 "method1" _ Hr Hl)).
Defined.

Lemma clearMemo_resets_one_cell_witness :
  demo_decl "shared" = Some (MMethod Stage3) /\
  cells (call_clearMemo demo_decl
    (run no_custom_equals demo_decl demo_body demo_getter emptyWorld [OpCall 0 "shared" []]) 1 "shared")
    !! KClass "shared" = Some initCell.
Proof.
  split; [reflexivity|].
  exact (proj1 (clearMemo_resets_one_cell demo_decl _ 1 "shared" Stage3 eq_refl)).
Defined.

